(** * Chinese Wall access control (LR2/task2.cpp)

    A shallow embedding of the [ChineseWall] class of [src/LR2/task2.cpp]
    and the properties of its operations.

    Conventions of the embedding:
    - [size_t] values (counts and subject/object indices) are [nat]; the only
      arithmetic the class does on them is the comparison against a count and
      the loop increment below a count, so no wrap-around can occur on them;
    - [int] values (firm ids) are [Z]; the two implicit conversions the class
      performs, [int -> size_t] (comparison with [firms], [operator[]]) and
      [size_t -> int] ([std::set<int>::count] on a loop index), are written
      out as [size_t_of_int] and [int_of_size_t];
    - [std::vector] is [list], read with [!!]; an [operator[]] outside the
      vector is undefined behaviour in C++ and makes the embedded member
      function return [None];
    - [std::set<int>] is [gset Z];
    - what a member function writes to [std::cerr] is returned with its
      result. *)

From stdpp Require Import base option list gmap strings pretty relations.
From Stdlib Require Import ZArith Lia.

(** ** Integer conversions *)

(** [int] converted to [size_t] (64 bit): reduction modulo [2^64]. *)
Definition size_t_of_int (z : Z) : Z := (z `mod` 2 ^ 64)%Z.

(** [size_t] converted to [int] (32 bit, two's complement). *)
Definition int_of_size_t (n : nat) : Z :=
  ((Z.of_nat n + 2 ^ 31) `mod` 2 ^ 32 - 2 ^ 31)%Z.

(** [v[z]] for an [int] index [z]: the index is converted to [size_t]. *)
Definition at_int {A} (v : list A) (z : Z) : option A :=
  v !! Z.to_nat (size_t_of_int z).

(** [z >= n] for [int z] and [size_t n]: the usual arithmetic conversions
    turn [z] into a [size_t] first. *)
Definition int_ge_size_t (z : Z) (n : nat) : bool :=
  bool_decide (Z.of_nat n ≤ size_t_of_int z)%Z.

(** ** The class state *)

Record ChineseWall := mkChineseWall {
  subjects : nat;
  objects : nat;
  firms : nat;
  accessMatrix : list (list bool);
  objectOwners : list Z;
  conflictClasses : list (gset Z)
}.

(** The constructor [ChineseWall(n, m, f)]. *)
Definition ChineseWall_new (n m f : nat) : ChineseWall :=
  {| subjects := n; objects := m; firms := f;
     accessMatrix := replicate n (replicate m false);
     objectOwners := replicate m 0%Z;
     conflictClasses := replicate f ∅ |}.

Definition set_accessMatrix (a : list (list bool)) (st : ChineseWall) : ChineseWall :=
  {| subjects := subjects st; objects := objects st; firms := firms st;
     accessMatrix := a;
     objectOwners := objectOwners st;
     conflictClasses := conflictClasses st |}.

Definition set_objectOwners (w : list Z) (st : ChineseWall) : ChineseWall :=
  {| subjects := subjects st; objects := objects st; firms := firms st;
     accessMatrix := accessMatrix st;
     objectOwners := w;
     conflictClasses := conflictClasses st |}.

Definition set_conflictClasses (c : list (gset Z)) (st : ChineseWall) : ChineseWall :=
  {| subjects := subjects st; objects := objects st; firms := firms st;
     accessMatrix := accessMatrix st;
     objectOwners := objectOwners st;
     conflictClasses := c |}.

(** The outcome of a member function that ran to its end: the returned value,
    the lines written to [std::cerr], and the object afterwards. *)
Record run (A : Type) := Run {
  ret : A;
  cerr : list string;
  post : ChineseWall
}.
Arguments Run {A} _ _ _.
Arguments ret {A} _.
Arguments cerr {A} _.
Arguments post {A} _.

Definition invalid_subject_or_object : string :=
  "Error: invalid subject or object index."%string.
Definition invalid_object_or_firm : string :=
  "Error: invalid object or firm index."%string.
Definition invalid_firm : string :=
  "Error: invalid firm index."%string.

(** ** Member functions *)

(** [start]: every row of the matrix is filled with [false]. *)
Definition start (st : ChineseWall) : ChineseWall :=
  set_accessMatrix (map (λ row, replicate (length row) false) (accessMatrix st)) st.

(** [accessMatrix[subject][object] = true]. *)
Definition grant (subject object : nat) (st : ChineseWall) : option ChineseWall :=
  row ← accessMatrix st !! subject;
  if decide (object < length row)
  then Some (set_accessMatrix (<[subject := <[object := true]> row]> (accessMatrix st)) st)
  else None.

(** The loop of [read] over the subjects [ix]: [Some true] when the loop
    returns [false] from [read] at some [i], [Some false] when it runs to its
    end. The right operand of [&&] is evaluated only when the left one is
    true. *)
Fixpoint read_scan (st : ChineseWall) (object : nat) (objectOwner : Z)
    (ix : list nat) : option bool :=
  match ix with
  | [] => Some false
  | i :: ix' =>
      row ← accessMatrix st !! i;
      a ← row !! object;
      if a : bool then
        cls ← at_int (conflictClasses st) objectOwner;
        if decide (int_of_size_t i ∈ cls) then Some true
        else read_scan st object objectOwner ix'
      else read_scan st object objectOwner ix'
  end.

Definition read (subject object : nat) (st : ChineseWall) : option (run bool) :=
  if decide (subjects st ≤ subject ∨ objects st ≤ object) then
    Some (Run false [invalid_subject_or_object] st)
  else
    objectOwner ← objectOwners st !! object;
    hit ← read_scan st object objectOwner (seq 0 (subjects st));
    if hit : bool then Some (Run false [] st)
    else
      st' ← grant subject object st;
      Some (Run true [] st').

(** The loop of [write] over the objects [ix]. *)
Fixpoint write_scan (st : ChineseWall) (subject : nat) (objectOwner : Z)
    (ix : list nat) : option bool :=
  match ix with
  | [] => Some false
  | i :: ix' =>
      row ← accessMatrix st !! subject;
      a ← row !! i;
      if a : bool then
        oi ← objectOwners st !! i;
        if decide (oi ≠ objectOwner) then
          cls ← at_int (conflictClasses st) objectOwner;
          if decide (oi ∈ cls) then Some true
          else write_scan st subject objectOwner ix'
        else write_scan st subject objectOwner ix'
      else write_scan st subject objectOwner ix'
  end.

Definition write (subject object : nat) (st : ChineseWall) : option (run bool) :=
  if decide (subjects st ≤ subject ∨ objects st ≤ object) then
    Some (Run false [invalid_subject_or_object] st)
  else
    r ← read subject object st;
    if negb (ret r) then Some (Run false (cerr r) (post r))
    else
      let st1 := post r in
      objectOwner ← objectOwners st1 !! object;
      hit ← write_scan st1 subject objectOwner (seq 0 (objects st1));
      if hit : bool then Some (Run false (cerr r) st1)
      else
        st2 ← grant subject object st1;
        Some (Run true (cerr r) st2).

Definition setObjectOwner (object : nat) (firm : Z) (st : ChineseWall)
    : option (run unit) :=
  if decide (objects st ≤ object ∨ int_ge_size_t firm (firms st) = true) then
    Some (Run () [invalid_object_or_firm] st)
  else if decide (object < length (objectOwners st)) then
    Some (Run () [] (set_objectOwners (<[object := firm]> (objectOwners st)) st))
  else None.

(** [conflictClasses[firm].insert(x)]. *)
Definition insert_conflict (firm x : Z) (st : ChineseWall) : option ChineseWall :=
  cls ← at_int (conflictClasses st) firm;
  Some (set_conflictClasses
          (<[Z.to_nat (size_t_of_int firm) := {[x]} ∪ cls]> (conflictClasses st)) st).

Definition addConflictClass (firm1 firm2 : Z) (st : ChineseWall)
    : option (run unit) :=
  if decide (int_ge_size_t firm1 (firms st) = true ∨
             int_ge_size_t firm2 (firms st) = true) then
    Some (Run () [invalid_firm] st)
  else
    st1 ← insert_conflict firm1 firm2 st;
    st2 ← insert_conflict firm2 firm1 st1;
    Some (Run () [] st2).

(** ** The vocabulary of the specification, read off the state *)

(** [granted(s, o)]: the matrix entry exists and is set. *)
Definition granted (st : ChineseWall) (s o : nat) : bool :=
  default false (accessMatrix st !! s ≫= (.!! o)).

(** [owner(o)]. *)
Definition owner (st : ChineseWall) (o : nat) : option Z := objectOwners st !! o.

(** [conflicts(a, b)]: [conflictClasses[a].count(b)]. *)
Definition conflicts (st : ChineseWall) (a b : Z) : bool :=
  match at_int (conflictClasses st) a with
  | Some cls => bool_decide (b ∈ cls)
  | None => false
  end.

(** ** Well-formed objects

    What the constructor establishes and every member function keeps: the
    matrix is [subjects] by [objects], there is one owner per object and one
    conflict set per firm; every owner is a firm id. [firms] is the size of
    an allocated vector, hence below [2^63]. *)

Definition wf (st : ChineseWall) : Prop :=
  length (accessMatrix st) = subjects st ∧
  Forall (λ row, length row = objects st) (accessMatrix st) ∧
  length (objectOwners st) = objects st ∧
  length (conflictClasses st) = firms st ∧
  Forall (λ w, 0 ≤ w < Z.of_nat (firms st))%Z (objectOwners st) ∧
  (Z.of_nat (firms st) < 2 ^ 63)%Z.

#[global] Instance wf_dec st : Decision (wf st).
Proof. unfold wf. apply _. Defined.

(** An [int]. *)
Definition is_int (z : Z) : Prop := (- 2 ^ 31 ≤ z < 2 ^ 31)%Z.

(** The conflict relation is symmetric on firm ids. *)
Definition conflict_symmetric (st : ChineseWall) : Prop :=
  ∀ a b : Z, (0 ≤ a < Z.of_nat (firms st))%Z → (0 ≤ b < Z.of_nat (firms st))%Z →
    conflicts st a b = true → conflicts st b a = true.

(** The Chinese Wall safety invariant of the specification. *)
Definition chinese_wall_safe (st : ChineseWall) : Prop :=
  ∀ (s o1 o2 : nat) (f1 f2 : Z),
    granted st s o1 = true → granted st s o2 = true →
    owner st o1 = Some f1 → owner st o2 = Some f2 →
    f1 ≠ f2 → conflicts st f1 f2 = false.

(** ** Step relations *)

(** One call of [read], [write], [setObjectOwner] or [addConflictClass],
    whatever its arguments and its outcome. *)
Inductive step : ChineseWall → ChineseWall → Prop :=
  | step_read s o st r : read s o st = Some r → step st (post r)
  | step_write s o st r : write s o st = Some r → step st (post r)
  | step_setObjectOwner o f st r : setObjectOwner o f st = Some r → step st (post r)
  | step_addConflictClass f1 f2 st r : addConflictClass f1 f2 st = Some r → step st (post r).

(** One accepted operation: [start], a [read] or [write] that returned
    [true], a [setObjectOwner] or [addConflictClass] on in-range arguments
    (one that printed no diagnostic). *)
Inductive accepted_step : ChineseWall → ChineseWall → Prop :=
  | acc_start st : accepted_step st (start st)
  | acc_read s o st r : read s o st = Some r → ret r = true → accepted_step st (post r)
  | acc_write s o st r : write s o st = Some r → ret r = true → accepted_step st (post r)
  | acc_setObjectOwner o f st r :
      is_int f → setObjectOwner o f st = Some r → cerr r = [] → accepted_step st (post r)
  | acc_addConflictClass f1 f2 st r :
      is_int f1 → is_int f2 →
      addConflictClass f1 f2 st = Some r → cerr r = [] → accepted_step st (post r).

(** A session in which the policy is fixed: [start] and accepted [write]s. *)
Inductive write_step : ChineseWall → ChineseWall → Prop :=
  | ws_start st : write_step st (start st)
  | ws_write s o st r : write s o st = Some r → ret r = true → write_step st (post r).

(** ** The set-up phase of [main]

    [main] constructs the wall, calls [setObjectOwner(i, firm)] for the
    objects [i = 0, 1, ...] in order with the firm ids [ws] it reads, then
    [addConflictClass(firm1, firm2)] for each pair of [ps] it reads. *)

Fixpoint set_owners (i : nat) (ws : list Z) (st : ChineseWall) : option ChineseWall :=
  match ws with
  | [] => Some st
  | w :: ws' => r ← setObjectOwner i w st; set_owners (S i) ws' (post r)
  end.

Fixpoint add_conflicts (ps : list (Z * Z)) (st : ChineseWall) : option ChineseWall :=
  match ps with
  | [] => Some st
  | (f1, f2) :: ps' => r ← addConflictClass f1 f2 st; add_conflicts ps' (post r)
  end.

Definition main_setup (n m f : nat) (ws : list Z) (ps : list (Z * Z))
    : option ChineseWall :=
  st ← set_owners 0 ws (ChineseWall_new n m f);
  add_conflicts ps st.

(** ** Walls used as concrete inputs *)

(** Two objects owned by the competing firms 0 and 1, with the given access
    matrix. *)
Definition competitors_wall (matrix : list (list bool)) : ChineseWall :=
  {| subjects := length matrix; objects := 2; firms := 2;
     accessMatrix := matrix;
     objectOwners := [0; 1]%Z;
     conflictClasses := [{[1%Z]}; {[0%Z]}] |}.

(** One object, owned by firm 0, which competes with firm 1. *)
Definition single_object_wall (matrix : list (list bool)) : ChineseWall :=
  {| subjects := length matrix; objects := 1; firms := 2;
     accessMatrix := matrix;
     objectOwners := [0%Z];
     conflictClasses := [{[1%Z]}; {[0%Z]}] |}.

(** Scenario 1 of the specification: the three reads, in order, on the wall
    with 2 subjects, 2 objects owned by firms 0 and 1, and the conflict pair
    (0, 1); the result lists what the three calls returned. *)
Definition scenario1 : option (list bool) :=
  st ← main_setup 2 2 2 [0; 1]%Z [(0, 1)%Z];
  a ← read 0 0 st;
  b ← read 0 1 (post a);
  c ← read 1 1 (post b);
  Some [ret a; ret b; ret c].

(** Subject 0 reads object 0 twice; the result lists what the two calls
    returned. *)
Definition read_twice (st : ChineseWall) : option (list bool) :=
  a ← read 0 0 st;
  b ← read 0 0 (post a);
  Some [ret a; ret b].

(** ** Reports

    [reportSubject], [reportObject] and [briefCase] write to [std::cout]. A
    report is modelled by the text it writes there and the lines it writes
    to [std::cerr]; [operator<<] on a [size_t] or an [int] is the decimal
    rendering [pretty], [std::endl] is the line feed. None of the three
    assigns to a member of the class. *)

Record printed := Printed {
  cout : string;
  diagnostics : list string
}.

Definition endl : string := String (Ascii.ascii_of_nat 10) EmptyString.

Definition invalid_subject : string := "Error: invalid subject index."%string.
Definition invalid_object : string := "Error: invalid object index."%string.

(** The loop the three reports share, over the indices [ix], with the flag
    [first] and the text [out] written so far. [entry i] is the body's test
    at [i]: [None] when it reads outside a vector, [Some None] when the test
    fails, [Some (Some item)] when it holds and [item] is what the body
    writes after the separator. *)
Fixpoint report_loop (entry : nat → option (option string)) (ix : list nat)
    (first : bool) (out : string) : option string :=
  match ix with
  | [] => Some out
  | i :: ix' =>
      e ← entry i;
      match e with
      | Some item =>
          report_loop entry ix' false
            ((if first then out else out +:+ ", ") +:+ item)
      | None => report_loop entry ix' first out
      end
  end.

Definition subject_item (i : nat) (w : Z) : string :=
  "Object " +:+ pretty i +:+ " (Firm " +:+ pretty w +:+ ")".

Definition reportSubject_entry (st : ChineseWall) (subject i : nat)
    : option (option string) :=
  row ← accessMatrix st !! subject;
  a ← row !! i;
  if a : bool then
    w ← objectOwners st !! i;
    Some (Some (subject_item i w))
  else Some None.

Definition reportSubject (subject : nat) (st : ChineseWall) : option printed :=
  if decide (subjects st ≤ subject) then Some (Printed "" [invalid_subject])
  else
    out ← report_loop (reportSubject_entry st subject) (seq 0 (objects st)) true
          ("Subject " +:+ pretty subject +:+ " accessed: ");
    Some (Printed (out +:+ endl) []).

Definition object_item (i : nat) : string := "Subject " +:+ pretty i.

Definition reportObject_entry (st : ChineseWall) (object i : nat)
    : option (option string) :=
  row ← accessMatrix st !! i;
  a ← row !! object;
  if a : bool then Some (Some (object_item i)) else Some None.

Definition reportObject (object : nat) (st : ChineseWall) : option printed :=
  if decide (objects st ≤ object) then Some (Printed "" [invalid_object])
  else
    out ← report_loop (reportObject_entry st object) (seq 0 (subjects st)) true
          ("Object " +:+ pretty object +:+ " was accessed by: ");
    Some (Printed (out +:+ endl) []).

Definition portfolio_item (i : nat) : string := "Object " +:+ pretty i.

Definition briefCase_entry (st : ChineseWall) (firm : Z) (i : nat)
    : option (option string) :=
  w ← objectOwners st !! i;
  if decide (w = firm) then Some (Some (portfolio_item i)) else Some None.

Definition briefCase (firm : Z) (st : ChineseWall) : option printed :=
  if decide (int_ge_size_t firm (firms st) = true) then Some (Printed "" [invalid_firm])
  else
    out ← report_loop (briefCase_entry st firm) (seq 0 (objects st)) true
          ("Firm " +:+ pretty firm +:+ " portfolio: ");
    Some (Printed (out +:+ endl) []).

(** ** What the reports list *)

(** The objects a subject holds, in increasing order, each with its owner. *)
Definition subject_accesses (st : ChineseWall) (s : nat) : list (nat * Z) :=
  omap (λ i, if granted st s i then pair i <$> owner st i else None)
       (seq 0 (objects st)).

(** The subjects that hold an object, in increasing order. *)
Definition object_accessors (st : ChineseWall) (o : nat) : list nat :=
  filter (λ i, granted st i o = true) (seq 0 (subjects st)).

(** The objects a firm owns, in increasing order. *)
Definition portfolio (st : ChineseWall) (firm : Z) : list nat :=
  filter (λ i, owner st i = Some firm) (seq 0 (objects st)).

(** [items] separated by [", "]. *)
Definition comma_joined (items : list string) : string := String.concat ", " items.

(** One call of a member function that changes the object, with [int]
    arguments where the parameter is an [int], whatever its outcome. *)
Inductive call : ChineseWall → ChineseWall → Prop :=
  | call_start st : call st (start st)
  | call_read s o st r : read s o st = Some r → call st (post r)
  | call_write s o st r : write s o st = Some r → call st (post r)
  | call_setObjectOwner o f st r :
      is_int f → setObjectOwner o f st = Some r → call st (post r)
  | call_addConflictClass f1 f2 st r :
      is_int f1 → is_int f2 → addConflictClass f1 f2 st = Some r → call st (post r).

(** One call of [read] or [write], whatever its arguments and outcome. *)
Inductive access : ChineseWall → ChineseWall → Prop :=
  | access_read s o st r : read s o st = Some r → access st (post r)
  | access_write s o st r : write s o st = Some r → access st (post r).

(** * Properties *)

(** ** Lookups *)

Lemma granted_true st s o :
  granted st s o = true ↔
  ∃ row, accessMatrix st !! s = Some row ∧ row !! o = Some true.
Proof.
  unfold granted. split.
  - destruct (accessMatrix st !! s) as [row|] eqn:Hrow; simpl; [|done].
    destruct (row !! o) as [[]|] eqn:Ho; simpl; try done. eauto.
  - intros (row & -> & Ho). simpl. by rewrite Ho.
Qed.

Lemma granted_entry st s o row a :
  accessMatrix st !! s = Some row → row !! o = Some a → granted st s o = a.
Proof. intros Hrow Ho. unfold granted. rewrite Hrow. simpl. by rewrite Ho. Qed.

Lemma granted_in_range st s o :
  wf st → granted st s o = true → s < subjects st ∧ o < objects st.
Proof.
  intros (Hn & Hm & _) (row & Hrow & Ho)%granted_true.
  split.
  - rewrite <- Hn. by eapply lookup_lt_Some.
  - rewrite Forall_lookup in Hm. rewrite <- (Hm _ _ Hrow). by eapply lookup_lt_Some.
Qed.

Lemma size_t_of_int_small z : (0 ≤ z < 2 ^ 64)%Z → size_t_of_int z = z.
Proof. intros. unfold size_t_of_int. by apply Z.mod_small. Qed.

Lemma at_int_firm {A} (v : list A) (z : Z) :
  (0 ≤ z < 2 ^ 63)%Z → at_int v z = v !! Z.to_nat z.
Proof. intros. unfold at_int. rewrite size_t_of_int_small; [done|lia]. Qed.

Lemma wf_row st s :
  wf st → s < subjects st →
  ∃ row, accessMatrix st !! s = Some row ∧ length row = objects st.
Proof.
  intros (Hn & Hm & _) Hs.
  destruct (lookup_lt_is_Some_2 (accessMatrix st) s) as [row Hrow]; [lia|].
  exists row. split; [done|]. rewrite Forall_lookup in Hm. eauto.
Qed.

Lemma wf_entry st s o :
  wf st → s < subjects st → o < objects st →
  ∃ row a, accessMatrix st !! s = Some row ∧ length row = objects st ∧ row !! o = Some a.
Proof.
  intros Hwf Hs Ho. destruct (wf_row st s Hwf Hs) as (row & Hrow & Hlen).
  destruct (lookup_lt_is_Some_2 row o) as [a Ha]; [lia|]. eauto 6.
Qed.

Lemma wf_owner st o :
  wf st → o < objects st →
  ∃ f, owner st o = Some f ∧ (0 ≤ f < Z.of_nat (firms st))%Z.
Proof.
  intros (_ & _ & Hlen & _ & Hrange & _) Ho. unfold owner.
  destruct (lookup_lt_is_Some_2 (objectOwners st) o) as [f Hf]; [lia|].
  exists f. split; [done|]. rewrite Forall_lookup in Hrange. eauto.
Qed.

Lemma wf_class st f :
  wf st → (0 ≤ f < Z.of_nat (firms st))%Z →
  ∃ cls, at_int (conflictClasses st) f = Some cls.
Proof.
  intros (_ & _ & _ & Hlen & _ & Hb) Hf.
  rewrite at_int_firm by lia. apply lookup_lt_is_Some_2. lia.
Qed.

(** ** [grant] *)

Lemma grant_Some s o st st' :
  grant s o st = Some st' →
  ∃ row, accessMatrix st !! s = Some row ∧ o < length row ∧
    st' = set_accessMatrix (<[s := <[o := true]> row]> (accessMatrix st)) st.
Proof.
  unfold grant. intros H.
  destruct (accessMatrix st !! s) as [row|] eqn:Hrow; simpl in H; [|done].
  case_decide; [|done]. injection H as <-. eauto.
Qed.

Lemma grant_total s o st :
  wf st → s < subjects st → o < objects st → is_Some (grant s o st).
Proof.
  intros Hwf Hs Ho. destruct (wf_row st s Hwf Hs) as (row & Hrow & Hlen).
  unfold grant. rewrite Hrow. simpl. case_decide; [eauto|lia].
Qed.

Lemma granted_grant s o st st' s' o' :
  grant s o st = Some st' →
  granted st' s' o' = if decide (s' = s ∧ o' = o) then true else granted st s' o'.
Proof.
  intros (row & Hrow & Ho & ->)%grant_Some.
  assert (s < length (accessMatrix st)) as Hs by by eapply lookup_lt_Some.
  unfold granted. simpl.
  destruct (decide (s' = s)) as [->|Hne].
  - rewrite list_lookup_insert_eq by done. rewrite Hrow. simpl.
    destruct (decide (o' = o)) as [->|Hne'].
    + rewrite list_lookup_insert_eq by done. by rewrite decide_True.
    + rewrite list_lookup_insert_ne by done. rewrite decide_False; [done|tauto].
  - rewrite list_lookup_insert_ne by done. rewrite decide_False; [done|tauto].
Qed.

Lemma grant_frame s o st st' :
  grant s o st = Some st' →
  subjects st' = subjects st ∧ objects st' = objects st ∧ firms st' = firms st ∧
  objectOwners st' = objectOwners st ∧ conflictClasses st' = conflictClasses st.
Proof. by intros (row & _ & _ & ->)%grant_Some. Qed.

Lemma grant_granted s o st st' :
  grant s o st = Some st' → granted st s o = true → st' = st.
Proof.
  intros (row & Hrow & Ho & ->)%grant_Some (row' & Hrow' & Hent)%granted_true.
  assert (row' = row) as -> by congruence.
  rewrite (list_insert_id row o true) by done.
  rewrite (list_insert_id _ s row) by done. by destruct st.
Qed.

Lemma grant_wf s o st st' : grant s o st = Some st' → wf st → wf st'.
Proof.
  intros (row & Hrow & Ho & ->)%grant_Some (Hn & Hm & Hrest).
  split_and!; simpl; try apply Hrest.
  - by rewrite length_insert.
  - apply Forall_insert; [done|]. rewrite length_insert.
    rewrite Forall_lookup in Hm. eauto.
Qed.

(** ** The two scans *)

Lemma read_scan_hit st o ow ix :
  read_scan st o ow ix = Some true →
  ∃ i, i ∈ ix ∧ granted st i o = true ∧ conflicts st ow (int_of_size_t i) = true.
Proof.
  induction ix as [|i ix IH]; simpl; [done|]. intros H.
  destruct (accessMatrix st !! i) as [row|] eqn:Hrow; simpl in H; [|done].
  destruct (row !! o) as [a|] eqn:Ha; simpl in H; [|done].
  destruct a.
  - destruct (at_int (conflictClasses st) ow) as [cls|] eqn:Hcls; simpl in H; [|done].
    case_decide as Hin.
    + exists i. split_and!; [left|by eapply granted_entry|].
      unfold conflicts. rewrite Hcls. by apply bool_decide_eq_true.
    + destruct (IH H) as (j & ? & ?). exists j. split; [by right|done].
  - destruct (IH H) as (j & ? & ?). exists j. split; [by right|done].
Qed.

Lemma read_scan_miss st o ow ix :
  read_scan st o ow ix = Some false →
  ∀ i, i ∈ ix → granted st i o = true → conflicts st ow (int_of_size_t i) = false.
Proof.
  induction ix as [|i ix IH]; simpl; intros H j Hj Hg; [by apply elem_of_nil in Hj|].
  destruct (accessMatrix st !! i) as [row|] eqn:Hrow; simpl in H; [|done].
  destruct (row !! o) as [a|] eqn:Ha; simpl in H; [|done].
  apply elem_of_cons in Hj as [->|Hj].
  - rewrite (granted_entry _ _ _ _ _ Hrow Ha) in Hg. subst a.
    destruct (at_int (conflictClasses st) ow) as [cls|] eqn:Hcls; simpl in H; [|done].
    case_decide as Hin; [done|].
    unfold conflicts. rewrite Hcls. by apply bool_decide_eq_false.
  - destruct a; [|by eapply IH].
    destruct (at_int (conflictClasses st) ow) as [cls|]; simpl in H; [|done].
    case_decide; [done|]. by eapply IH.
Qed.

Lemma read_scan_total st o ow ix :
  wf st → o < objects st → (0 ≤ ow < Z.of_nat (firms st))%Z →
  Forall (λ i, i < subjects st) ix →
  is_Some (read_scan st o ow ix).
Proof.
  intros Hwf Ho How. induction 1 as [|i ix Hi _ IH]; simpl; [eauto|].
  destruct (wf_entry st i o Hwf Hi Ho) as (row & a & -> & _ & Ha). simpl.
  rewrite Ha. simpl. destruct a; [|done].
  destruct (wf_class st ow Hwf How) as [cls ->]. simpl. by case_decide.
Qed.

Lemma write_scan_hit st s ow ix :
  write_scan st s ow ix = Some true →
  ∃ i fi, i ∈ ix ∧ granted st s i = true ∧ owner st i = Some fi ∧
          fi ≠ ow ∧ conflicts st ow fi = true.
Proof.
  induction ix as [|i ix IH]; simpl; [done|]. intros H.
  assert (write_scan st s ow ix = Some true →
          ∃ j fj, j ∈ i :: ix ∧ granted st s j = true ∧ owner st j = Some fj ∧
                  fj ≠ ow ∧ conflicts st ow fj = true) as IH'.
  { intros (j & fj & ? & ?)%IH. exists j, fj. split; [by right|done]. }
  destruct (accessMatrix st !! s) as [row|] eqn:Hrow; simpl in H; [|done].
  destruct (row !! i) as [a|] eqn:Ha; simpl in H; [|done].
  destruct a; [|by apply IH'].
  destruct (objectOwners st !! i) as [oi|] eqn:Hoi; simpl in H; [|done].
  case_decide as Hne; [|by apply IH'].
  destruct (at_int (conflictClasses st) ow) as [cls|] eqn:Hcls; simpl in H; [|done].
  case_decide as Hin; [|by apply IH'].
  exists i, oi. split_and!; [left|by eapply granted_entry|done|done|].
  unfold conflicts. rewrite Hcls. by apply bool_decide_eq_true.
Qed.

Lemma write_scan_miss st s ow ix :
  write_scan st s ow ix = Some false →
  ∀ i fi, i ∈ ix → granted st s i = true → owner st i = Some fi → fi ≠ ow →
          conflicts st ow fi = false.
Proof.
  induction ix as [|i ix IH]; simpl; intros H j fj Hj Hg Hfj Hne;
    [by apply elem_of_nil in Hj|].
  destruct (accessMatrix st !! s) as [row|] eqn:Hrow; simpl in H; [|done].
  destruct (row !! i) as [a|] eqn:Ha; simpl in H; [|done].
  apply elem_of_cons in Hj as [->|Hj].
  - rewrite (granted_entry _ _ _ _ _ Hrow Ha) in Hg. subst a.
    unfold owner in Hfj. rewrite Hfj in H. simpl in H.
    rewrite decide_True in H by done.
    destruct (at_int (conflictClasses st) ow) as [cls|] eqn:Hcls; simpl in H; [|done].
    case_decide as Hin; [done|].
    unfold conflicts. rewrite Hcls. by apply bool_decide_eq_false.
  - destruct a; [|by eapply IH].
    destruct (objectOwners st !! i) as [oi|]; simpl in H; [|done].
    case_decide; [|by eapply IH].
    destruct (at_int (conflictClasses st) ow) as [cls|]; simpl in H; [|done].
    case_decide; [done|]. by eapply IH.
Qed.

Lemma write_scan_total st s ow ix :
  wf st → s < subjects st → (0 ≤ ow < Z.of_nat (firms st))%Z →
  Forall (λ i, i < objects st) ix →
  is_Some (write_scan st s ow ix).
Proof.
  intros Hwf Hs How. induction 1 as [|i ix Hi _ IH]; simpl; [eauto|].
  destruct (wf_entry st s i Hwf Hs Hi) as (row & a & -> & _ & Ha). simpl.
  rewrite Ha. simpl. destruct a; [|done].
  destruct (wf_owner st i Hwf Hi) as (fi & Hfi & _). unfold owner in Hfi.
  rewrite Hfi. simpl. case_decide; [|done].
  destruct (wf_class st ow Hwf How) as [cls ->]. simpl. by case_decide.
Qed.

Lemma Forall_seq_lt n : Forall (λ i, i < n) (seq 0 n).
Proof. apply Forall_forall. intros i Hi%elem_of_seq. lia. Qed.

(** ** [read] *)

Lemma read_out_of_range s o st :
  subjects st ≤ s ∨ objects st ≤ o →
  read s o st = Some (Run false [invalid_subject_or_object] st).
Proof. intros H. unfold read. by rewrite decide_True. Qed.

(** Every way [read] can return on in-range arguments. *)
Lemma read_in_range s o st r :
  s < subjects st → o < objects st → read s o st = Some r →
  ∃ fo, owner st o = Some fo ∧ cerr r = [] ∧
    ((ret r = false ∧ post r = st ∧
      ∃ i, i < subjects st ∧ granted st i o = true ∧
           conflicts st fo (int_of_size_t i) = true) ∨
     (ret r = true ∧ grant s o st = Some (post r) ∧
      ∀ i, i < subjects st → granted st i o = true →
           conflicts st fo (int_of_size_t i) = false)).
Proof.
  intros Hs Ho. unfold read. rewrite decide_False by lia. intros H.
  destruct (objectOwners st !! o) as [fo|] eqn:Hfo; simpl in H; [|done].
  exists fo. split; [done|].
  destruct (read_scan st o fo (seq 0 (subjects st))) as [[]|] eqn:Hscan;
    simpl in H; [| |done].
  - injection H as <-. split; [done|]. left. split_and!; [done..|].
    destruct (read_scan_hit _ _ _ _ Hscan) as (i & Hi%elem_of_seq & ? & ?).
    exists i. split_and!; [lia|done..].
  - destruct (grant s o st) as [st'|] eqn:Hg; simpl in H; [|done].
    injection H as <-. split; [done|]. right. split_and!; [done..|].
    intros i Hi. eapply read_scan_miss; [done|]. apply elem_of_seq. lia.
Qed.

Lemma read_total s o st : wf st → is_Some (read s o st).
Proof.
  intros Hwf. unfold read. case_decide as Hr; [eauto|].
  assert (s < subjects st ∧ o < objects st) as [Hs Ho] by lia.
  destruct (wf_owner st o Hwf Ho) as (fo & Hfo & Hrange). unfold owner in Hfo.
  rewrite Hfo. simpl.
  destruct (read_scan_total st o fo (seq 0 (subjects st)) Hwf Ho Hrange
              (Forall_seq_lt _)) as [hit ->]. simpl.
  destruct hit; [eauto|].
  destruct (grant_total s o st Hwf Hs Ho) as [st' ->]. simpl. eauto.
Qed.

(** A refused [read], for whichever reason, leaves the object as it was. *)
Lemma read_refused s o st r : read s o st = Some r → ret r = false → post r = st.
Proof.
  intros H Hret. destruct (decide (subjects st ≤ s ∨ objects st ≤ o)) as [Hr|Hr].
  - rewrite read_out_of_range in H by done. by injection H as <-.
  - destruct (read_in_range s o st r) as (fo & _ & _ & [(_ & ? & _)|(? & _)]);
      [lia|lia|done|done|congruence].
Qed.

(** What [read] does to the object in general: nothing, or the one grant. *)
Lemma read_post s o st r :
  read s o st = Some r → post r = st ∨ grant s o st = Some (post r).
Proof.
  intros H. destruct (decide (subjects st ≤ s ∨ objects st ≤ o)) as [Hr|Hr].
  - rewrite read_out_of_range in H by done. injection H as <-. by left.
  - destruct (read_in_range s o st r) as (fo & _ & _ & [(_ & ? & _)|(_ & ? & _)]);
      [lia|lia|done|by left|by right].
Qed.

(** ** [write] *)

Lemma write_out_of_range s o st :
  subjects st ≤ s ∨ objects st ≤ o →
  write s o st = Some (Run false [invalid_subject_or_object] st).
Proof. intros H. unfold write. by rewrite decide_True. Qed.

(** Every way [write] can return on in-range arguments: [rr] is what the
    inner call of [read] returned. *)
Lemma write_in_range s o st r :
  s < subjects st → o < objects st → write s o st = Some r →
  ∃ rr fo, read s o st = Some rr ∧ owner st o = Some fo ∧ cerr r = [] ∧
    ((ret rr = false ∧ r = rr) ∨
     (ret rr = true ∧ post r = post rr ∧
      ((ret r = false ∧
        ∃ i fi, i < objects st ∧ granted (post rr) s i = true ∧
                owner st i = Some fi ∧ fi ≠ fo ∧ conflicts st fo fi = true) ∨
       (ret r = true ∧
        ∀ i fi, i < objects st → granted (post rr) s i = true →
                owner st i = Some fi → fi ≠ fo → conflicts st fo fi = false)))).
Proof.
  intros Hs Ho. unfold write. rewrite decide_False by lia. intros H.
  destruct (read s o st) as [rr|] eqn:Hread; simpl in H; [|done].
  destruct (read_in_range s o st rr Hs Ho Hread) as (fo & Hfo & Hcerr & Hcases).
  exists rr, fo. split_and!; [done..| |].
  { destruct (ret rr); simpl in H.
    - repeat (match type of H with
              | context [mbind _ ?x] => destruct x; simpl in H; [|done]
              | context [if ?b then _ else _] => destruct b
              end); by injection H as <-.
    - by injection H as <-. }
  destruct Hcases as [(Hret & Hpost & _)|(Hret & Hgrant & _)].
  { left. rewrite Hret in H. simpl in H. injection H as <-.
    split; [done|]. destruct rr; simpl in *. congruence. }
  right. split; [done|]. rewrite Hret in H. simpl in H.
  destruct (grant_frame _ _ _ _ Hgrant) as (_ & Hm & _ & Hown & Hcc).
  unfold owner in *. rewrite Hown, Hfo in H. simpl in H. rewrite Hm in H.
  assert (∀ a b, conflicts (post rr) a b = conflicts st a b) as Hconf.
  { intros. unfold conflicts. by rewrite Hcc. }
  destruct (write_scan (post rr) s fo (seq 0 (objects st))) as [[]|] eqn:Hscan;
    simpl in H; [| |done].
  - injection H as <-. split; [done|]. left. split; [done|].
    destruct (write_scan_hit _ _ _ _ Hscan)
      as (i & fi & Hi%elem_of_seq & Hg & Hfi & Hne & Hc).
    exists i, fi. unfold owner in Hfi. rewrite Hown in Hfi. rewrite Hconf in Hc.
    split_and!; [lia|done..].
  - destruct (grant s o (post rr)) as [st2|] eqn:Hg2; simpl in H; [|done].
    injection H as <-. simpl.
    assert (st2 = post rr) as ->.
    { eapply grant_granted; [done|]. rewrite (granted_grant _ _ _ _ _ _ Hgrant).
      by rewrite decide_True. }
    split; [done|]. right. split; [done|].
    intros i fi Hi Hg Hfi Hne. rewrite <- Hconf.
    apply (write_scan_miss _ _ _ _ Hscan i fi); [|done| |done].
    + apply elem_of_seq. lia.
    + unfold owner. by rewrite Hown.
Qed.

Lemma write_total s o st : wf st → is_Some (write s o st).
Proof.
  intros Hwf. unfold write. case_decide as Hr; [eauto|].
  assert (s < subjects st ∧ o < objects st) as [Hs Ho] by lia.
  destruct (read_total s o st Hwf) as [rr Hread]. rewrite Hread. simpl.
  destruct (ret rr) eqn:Hret; simpl; [|eauto].
  destruct (read_in_range s o st rr Hs Ho Hread)
    as (fo & Hfo & _ & [(? & _)|(_ & Hgrant & _)]); [congruence|].
  pose proof (grant_wf _ _ _ _ Hgrant Hwf) as Hwf1.
  destruct (grant_frame _ _ _ _ Hgrant) as (Hn & Hm & Hf & Hown & Hcc).
  destruct (wf_owner (post rr) o Hwf1) as (fo' & Hfo' & Hrange); [lia|].
  unfold owner in Hfo'. rewrite Hfo'. simpl.
  destruct (write_scan_total (post rr) s fo' (seq 0 (objects (post rr))) Hwf1)
    as [hit ->]; [lia|done|apply Forall_seq_lt|]. simpl.
  destruct hit; [eauto|].
  destruct (grant_total s o (post rr) Hwf1) as [st2 ->]; [lia..|]. simpl. eauto.
Qed.

(** ** Frames: what each member function leaves alone *)

Lemma read_frame s o st r :
  read s o st = Some r →
  subjects (post r) = subjects st ∧ objects (post r) = objects st ∧
  firms (post r) = firms st ∧
  objectOwners (post r) = objectOwners st ∧
  conflictClasses (post r) = conflictClasses st.
Proof.
  intros [->|Hg]%read_post; [done|]. by eapply grant_frame.
Qed.

Lemma write_post s o st r :
  write s o st = Some r → post r = st ∨ grant s o st = Some (post r).
Proof.
  intros H. destruct (decide (subjects st ≤ s ∨ objects st ≤ o)) as [Hr|Hr].
  - rewrite write_out_of_range in H by done. injection H as <-. by left.
  - destruct (write_in_range s o st r) as (rr & fo & Hread & _ & _ & Hc);
      [lia|lia|done|].
    destruct Hc as [(_ & ->)|(_ & -> & _)]; by eapply read_post.
Qed.

Lemma write_frame s o st r :
  write s o st = Some r →
  subjects (post r) = subjects st ∧ objects (post r) = objects st ∧
  firms (post r) = firms st ∧
  objectOwners (post r) = objectOwners st ∧
  conflictClasses (post r) = conflictClasses st.
Proof.
  intros [->|Hg]%write_post; [done|]. by eapply grant_frame.
Qed.

Lemma setObjectOwner_inv o f st r :
  setObjectOwner o f st = Some r →
  (cerr r = [invalid_object_or_firm] ∧ post r = st ∧
   (objects st ≤ o ∨ int_ge_size_t f (firms st) = true)) ∨
  (cerr r = [] ∧ o < objects st ∧ int_ge_size_t f (firms st) = false ∧
   o < length (objectOwners st) ∧
   post r = set_objectOwners (<[o := f]> (objectOwners st)) st).
Proof.
  unfold setObjectOwner. intros H. case_decide as Hr.
  - injection H as <-. by left.
  - case_decide; [|done]. injection H as <-. right. simpl.
    split_and!; [done|lia| |done..].
    destruct (int_ge_size_t f (firms st)); [tauto|done].
Qed.

Lemma insert_conflict_inv f x st st' :
  insert_conflict f x st = Some st' →
  ∃ cls, at_int (conflictClasses st) f = Some cls ∧
    st' = set_conflictClasses
            (<[Z.to_nat (size_t_of_int f) := {[x]} ∪ cls]> (conflictClasses st)) st.
Proof.
  unfold insert_conflict. intros H.
  destruct (at_int (conflictClasses st) f) as [cls|]; simpl in H; [|done].
  injection H as <-. eauto.
Qed.

Lemma addConflictClass_inv f1 f2 st r :
  addConflictClass f1 f2 st = Some r →
  (cerr r = [invalid_firm] ∧ post r = st ∧
   (int_ge_size_t f1 (firms st) = true ∨ int_ge_size_t f2 (firms st) = true)) ∨
  (cerr r = [] ∧ int_ge_size_t f1 (firms st) = false ∧
   int_ge_size_t f2 (firms st) = false ∧
   ∃ st1, insert_conflict f1 f2 st = Some st1 ∧
          insert_conflict f2 f1 st1 = Some (post r)).
Proof.
  unfold addConflictClass. intros H. case_decide as Hr.
  - injection H as <-. by left.
  - destruct (insert_conflict f1 f2 st) as [st1|] eqn:H1; simpl in H; [|done].
    destruct (insert_conflict f2 f1 st1) as [st2|] eqn:H2; simpl in H; [|done].
    injection H as <-. right. simpl. split_and!; [done| | |eauto].
    + destruct (int_ge_size_t f1 (firms st)); [tauto|done].
    + destruct (int_ge_size_t f2 (firms st)); [tauto|done].
Qed.

Lemma setObjectOwner_matrix o f st r :
  setObjectOwner o f st = Some r → accessMatrix (post r) = accessMatrix st.
Proof. by intros [(_ & -> & _)|(_ & _ & _ & _ & ->)]%setObjectOwner_inv. Qed.

Lemma addConflictClass_matrix f1 f2 st r :
  addConflictClass f1 f2 st = Some r → accessMatrix (post r) = accessMatrix st.
Proof.
  intros [(_ & -> & _)|(_ & _ & _ & st1 & H1 & H2)]%addConflictClass_inv; [done|].
  apply insert_conflict_inv in H1 as (? & _ & ->).
  by apply insert_conflict_inv in H2 as (? & _ & ->).
Qed.

(** ** Firm ids that pass the range check *)

Lemma int_lt_size_t f n :
  is_int f → (Z.of_nat n < 2 ^ 63)%Z → int_ge_size_t f n = false →
  (0 ≤ f < Z.of_nat n)%Z ∧ size_t_of_int f = f.
Proof.
  unfold is_int, int_ge_size_t, size_t_of_int.
  intros Hint Hn Hge%bool_decide_eq_false.
  destruct (decide (0 ≤ f)%Z) as [Hpos|Hneg].
  - rewrite Z.mod_small in Hge |- * by lia. lia.
  - exfalso. apply Hge.
    rewrite <- (Z.mod_add f 1 (2 ^ 64)) by lia.
    rewrite Z.mod_small by lia. lia.
Qed.

Lemma int_lt_size_t_total (f : Z) (n : nat) :
  (0 ≤ f < Z.of_nat n)%Z → (Z.of_nat n < 2 ^ 63)%Z → int_ge_size_t f n = false.
Proof.
  intros Hf Hn. unfold int_ge_size_t. apply bool_decide_eq_false.
  rewrite size_t_of_int_small by lia. lia.
Qed.

(** A subject index below [2^31] is converted to [int] unchanged. *)
Lemma int_of_size_t_small (i : nat) :
  (Z.of_nat i < 2 ^ 31)%Z → int_of_size_t i = Z.of_nat i.
Proof. intros Hi. unfold int_of_size_t. rewrite Z.mod_small; lia. Qed.

(** ** Well-formedness is kept *)

Lemma ChineseWall_new_wf n m f :
  (0 < f ∨ m = 0) → (Z.of_nat f < 2 ^ 63)%Z → wf (ChineseWall_new n m f).
Proof.
  intros Hf Hb. unfold wf. simpl. rewrite !length_replicate.
  split_and!; try done.
  - apply Forall_replicate. by rewrite length_replicate.
  - destruct Hf as [Hf| ->]; [|by constructor]. apply Forall_replicate. lia.
Qed.

Lemma start_wf st : wf st → wf (start st).
Proof.
  intros (Hn & Hm & Hrest). split_and!; simpl; try apply Hrest.
  - by rewrite length_map.
  - apply Forall_map. eapply Forall_impl; [done|].
    intros row Hrow. simpl. by rewrite length_replicate.
Qed.

Lemma read_wf s o st r : read s o st = Some r → wf st → wf (post r).
Proof. intros [->|Hg]%read_post; [done|]. by eapply grant_wf. Qed.

Lemma write_wf s o st r : write s o st = Some r → wf st → wf (post r).
Proof. intros [->|Hg]%write_post; [done|]. by eapply grant_wf. Qed.

Lemma setObjectOwner_wf o f st r :
  is_int f → setObjectOwner o f st = Some r → wf st → wf (post r).
Proof.
  intros Hint [(_ & -> & _)|(_ & Ho & Hf & Hlen & ->)]%setObjectOwner_inv; [done|].
  intros (Hn & Hm & Hw & Hc & Hrange & Hb).
  split_and!; simpl; try done.
  - by rewrite length_insert.
  - apply Forall_insert; [done|]. by eapply int_lt_size_t.
Qed.

Lemma insert_conflict_wf f x st st' :
  insert_conflict f x st = Some st' → wf st → wf st'.
Proof.
  intros (cls & _ & ->)%insert_conflict_inv (Hn & Hm & Hw & Hc & Hrange & Hb).
  split_and!; simpl; try done. by rewrite length_insert.
Qed.

Lemma addConflictClass_wf f1 f2 st r :
  addConflictClass f1 f2 st = Some r → wf st → wf (post r).
Proof.
  intros [(_ & -> & _)|(_ & _ & _ & st1 & H1 & H2)]%addConflictClass_inv; [done|].
  intros Hwf. eapply insert_conflict_wf; [done|]. by eapply insert_conflict_wf.
Qed.

Lemma setObjectOwner_total o f st : wf st → is_Some (setObjectOwner o f st).
Proof.
  intros (_ & _ & Hw & _). unfold setObjectOwner.
  case_decide; [eauto|]. case_decide; [eauto|lia].
Qed.

Lemma insert_conflict_total f x st :
  wf st → int_ge_size_t f (firms st) = false → is_Some (insert_conflict f x st).
Proof.
  intros (_ & _ & _ & Hc & _) Hf%bool_decide_eq_false.
  destruct (lookup_lt_is_Some_2 (conflictClasses st)
              (Z.to_nat (size_t_of_int f))) as [cls Hcls].
  { unfold size_t_of_int in *. pose proof (Z.mod_pos_bound f (2 ^ 64)). lia. }
  unfold insert_conflict, at_int. rewrite Hcls. simpl. eauto.
Qed.

Lemma addConflictClass_total f1 f2 st : wf st → is_Some (addConflictClass f1 f2 st).
Proof.
  intros Hwf. unfold addConflictClass. case_decide as Hr; [eauto|].
  destruct (int_ge_size_t f1 (firms st)) eqn:H1; [tauto|].
  destruct (int_ge_size_t f2 (firms st)) eqn:H2; [tauto|].
  destruct (insert_conflict_total f1 f2 st Hwf H1) as [st1 Hst1].
  rewrite Hst1. simpl.
  pose proof (insert_conflict_wf _ _ _ _ Hst1 Hwf) as Hwf1.
  assert (firms st1 = firms st) as Hf.
  { by apply insert_conflict_inv in Hst1 as (? & _ & ->). }
  destruct (insert_conflict_total f2 f1 st1 Hwf1) as [st2 ->]; [by rewrite Hf|].
  simpl. eauto.
Qed.

(** ** The conflict relation *)

Lemma conflicts_ext st st' :
  conflictClasses st' = conflictClasses st →
  ∀ a b, conflicts st' a b = conflicts st a b.
Proof. intros Hcc a b. unfold conflicts. by rewrite Hcc. Qed.

Lemma ChineseWall_new_conflicts n m f a b :
  conflicts (ChineseWall_new n m f) a b = false.
Proof.
  unfold conflicts, at_int. simpl.
  destruct (replicate f ∅ !! _) as [cls|] eqn:Hcls; [|done].
  apply lookup_replicate in Hcls as [-> _]. by apply bool_decide_eq_false.
Qed.

Lemma conflicts_insert_conflict f x st st' a b :
  wf st → (0 ≤ f < Z.of_nat (firms st))%Z → (0 ≤ a < Z.of_nat (firms st))%Z →
  insert_conflict f x st = Some st' →
  conflicts st' a b = true ↔ conflicts st a b = true ∨ (a = f ∧ b = x).
Proof.
  intros (_ & _ & _ & Hc & _ & Hb) Hf Ha (cls & Hcls & ->)%insert_conflict_inv.
  unfold conflicts. simpl. rewrite !(at_int_firm _ a) by lia.
  rewrite at_int_firm in Hcls by lia. rewrite size_t_of_int_small by lia.
  destruct (decide (a = f)) as [->|Hne].
  - rewrite list_lookup_insert_eq by lia. rewrite Hcls.
    rewrite !bool_decide_eq_true, elem_of_union, elem_of_singleton. tauto.
  - rewrite list_lookup_insert_ne by lia. split; [by left|].
    intros [?|[? _]]; [done|lia].
Qed.

Lemma ChineseWall_new_symmetric n m f : conflict_symmetric (ChineseWall_new n m f).
Proof. intros a b _ _. by rewrite ChineseWall_new_conflicts. Qed.

Lemma conflict_symmetric_ext st st' :
  firms st' = firms st → conflictClasses st' = conflictClasses st →
  conflict_symmetric st → conflict_symmetric st'.
Proof.
  intros Hf Hcc Hsym a b Ha Hb. rewrite !(conflicts_ext st st' Hcc).
  rewrite Hf in Ha, Hb. by apply Hsym.
Qed.

Lemma addConflictClass_symmetric f1 f2 st r :
  is_int f1 → is_int f2 → wf st →
  addConflictClass f1 f2 st = Some r →
  conflict_symmetric st → conflict_symmetric (post r).
Proof.
  intros Hi1 Hi2 Hwf
    [(_ & -> & _)|(_ & Hf1 & Hf2 & st1 & H1 & H2)]%addConflictClass_inv; [done|].
  intros Hsym a b Ha Hb.
  pose proof Hwf as (_ & _ & _ & _ & _ & Hbound).
  destruct (int_lt_size_t f1 _ Hi1 Hbound Hf1) as [Hr1 _].
  destruct (int_lt_size_t f2 _ Hi2 Hbound Hf2) as [Hr2 _].
  pose proof (insert_conflict_wf _ _ _ _ H1 Hwf) as Hwf1.
  assert (firms st1 = firms st) as Hfirms1.
  { by apply insert_conflict_inv in H1 as (? & _ & ->). }
  assert (firms (post r) = firms st) as Hfirms2.
  { apply insert_conflict_inv in H2 as (? & _ & ->). done. }
  rewrite Hfirms2 in Ha, Hb.
  rewrite !(conflicts_insert_conflict f2 f1 st1 (post r)) by (done || lia).
  rewrite !(conflicts_insert_conflict f1 f2 st st1) by (done || lia).
  intros [[Hc|[-> ->]]|[-> ->]]; [|tauto..].
  left. left. by apply Hsym.
Qed.

(** ** The invariant of accepted operations *)

Lemma accepted_step_wf st st' :
  accepted_step st st' → wf st ∧ conflict_symmetric st → wf st' ∧ conflict_symmetric st'.
Proof.
  intros Hstep [Hwf Hsym]. destruct Hstep as
    [st|s o st r H _|s o st r H _|o f st r Hf H _|f1 f2 st r Hf1 Hf2 H _].
  - split; [by apply start_wf|]. by eapply conflict_symmetric_ext.
  - split; [by eapply read_wf|].
    destruct (read_frame _ _ _ _ H) as (_ & _ & ? & _ & ?).
    by eapply conflict_symmetric_ext.
  - split; [by eapply write_wf|].
    destruct (write_frame _ _ _ _ H) as (_ & _ & ? & _ & ?).
    by eapply conflict_symmetric_ext.
  - split; [by eapply setObjectOwner_wf|].
    apply setObjectOwner_inv in H as [(_ & -> & _)|(_ & _ & _ & _ & ->)]; [done|].
    by eapply conflict_symmetric_ext.
  - split; [by eapply addConflictClass_wf|].
    by apply (addConflictClass_symmetric f1 f2 st r).
Qed.

Lemma accepted_steps_wf st st' :
  rtc accepted_step st st' → wf st ∧ conflict_symmetric st →
  wf st' ∧ conflict_symmetric st'.
Proof. induction 1; [done|]. intros. eauto using accepted_step_wf. Qed.

(** Every wall reached from a constructed one by accepted operations is
    well-formed and has a symmetric conflict relation. *)
Lemma reachable_wf n m f st :
  (0 < f ∨ m = 0) → (Z.of_nat f < 2 ^ 63)%Z →
  rtc accepted_step (ChineseWall_new n m f) st →
  wf st ∧ conflict_symmetric st.
Proof.
  intros Hf Hb Hsteps. apply (accepted_steps_wf _ _ Hsteps).
  split; [by apply ChineseWall_new_wf|apply ChineseWall_new_symmetric].
Qed.

(** ** Safety of [start] and of an accepted [write] *)

Lemma granted_start st s o : granted (start st) s o = false.
Proof.
  unfold granted, start. simpl. rewrite list_lookup_fmap.
  destruct (accessMatrix st !! s) as [row|]; simpl; [|done].
  destruct (replicate (length row) false !! o) as [a|] eqn:Ha; simpl; [|done].
  by apply lookup_replicate in Ha as [-> _].
Qed.

Lemma start_safe st : chinese_wall_safe (start st).
Proof. intros s o1 o2 f1 f2 Hg. by rewrite granted_start in Hg. Qed.

Lemma ChineseWall_new_granted n m f s o : granted (ChineseWall_new n m f) s o = false.
Proof.
  unfold granted. simpl.
  destruct (replicate n (replicate m false) !! s) as [row|] eqn:Hrow; simpl; [|done].
  apply lookup_replicate in Hrow as [-> _].
  destruct (replicate m false !! o) as [a|] eqn:Ha; simpl; [|done].
  by apply lookup_replicate in Ha as [-> _].
Qed.

Lemma ChineseWall_new_safe n m f : chinese_wall_safe (ChineseWall_new n m f).
Proof. intros s o1 o2 f1 f2 Hg. by rewrite ChineseWall_new_granted in Hg. Qed.

Lemma write_accepted_safe s o st r :
  wf st → conflict_symmetric st → chinese_wall_safe st →
  write s o st = Some r → ret r = true → chinese_wall_safe (post r).
Proof.
  intros Hwf Hsym Hsafe Hw Hret.
  destruct (decide (subjects st ≤ s ∨ objects st ≤ o)) as [Hr|Hr].
  { rewrite write_out_of_range in Hw by done. injection Hw as <-. done. }
  assert (s < subjects st ∧ o < objects st) as [Hs Ho] by lia.
  destruct (write_in_range s o st r Hs Ho Hw)
    as (rr & fo & Hread & Hfo & _ & [(? & ->)|(Hrr & Hpost & Hscan)]); [congruence|].
  destruct Hscan as [(? & _)|(_ & Hscan)]; [congruence|].
  destruct (read_in_range s o st rr Hs Ho Hread)
    as (fo' & _ & _ & [(? & _)|(_ & Hgrant & _)]); [congruence|].
  pose proof (write_wf _ _ _ _ Hw Hwf) as Hwf'.
  destruct (grant_frame _ _ _ _ Hgrant) as (_ & Hm & _ & Hown & Hcc).
  rewrite Hpost in *. clear Hpost.
  assert (∀ i, owner (post rr) i = owner st i) as Howner.
  { intros i. unfold owner. by rewrite Hown. }
  destruct (wf_owner st o Hwf Ho) as (fo0 & Hfo0 & Hfo_range).
  assert (fo0 = fo) as -> by congruence.
  intros s' o1 o2 f1 f2 Hg1 Hg2 Hf1 Hf2 Hne.
  rewrite (conflicts_ext st (post rr) Hcc). rewrite Howner in Hf1, Hf2.
  pose proof (granted_in_range _ _ _ Hwf' Hg1) as [_ Ho1].
  pose proof (granted_in_range _ _ _ Hwf' Hg2) as [_ Ho2].
  rewrite Hm in Ho1, Ho2.
  destruct (decide (s' = s ∧ o1 = o)) as [[-> ->]|Hn1].
  { assert (f1 = fo) as -> by congruence. by eapply Hscan. }
  destruct (decide (s' = s ∧ o2 = o)) as [[-> ->]|Hn2].
  { assert (f2 = fo) as -> by congruence.
    destruct (wf_owner st o1 Hwf Ho1) as (f1' & Hf1' & Hf1_range).
    assert (f1' = f1) as -> by congruence.
    destruct (conflicts st f1 fo) eqn:Hc; [|done].
    apply Hsym in Hc; [|done..].
    rewrite (Hscan o1 f1) in Hc; done. }
  rewrite (granted_grant _ _ _ _ s' o1 Hgrant), decide_False in Hg1 by done.
  rewrite (granted_grant _ _ _ _ s' o2 Hgrant), decide_False in Hg2 by done.
  by apply (Hsafe s' o1 o2 f1 f2).
Qed.

Lemma write_step_invariant st st' :
  write_step st st' →
  wf st ∧ conflict_symmetric st ∧ chinese_wall_safe st →
  wf st' ∧ conflict_symmetric st' ∧ chinese_wall_safe st'.
Proof.
  intros Hstep (Hwf & Hsym & Hsafe). destruct Hstep as [st|s o st r H Hret].
  - split_and!; [by apply start_wf|by eapply conflict_symmetric_ext|apply start_safe].
  - destruct (write_frame _ _ _ _ H) as (_ & _ & ? & _ & ?).
    split_and!; [by eapply write_wf|by eapply conflict_symmetric_ext|].
    by eapply write_accepted_safe.
Qed.

(** * The claims *)

Ltac run_call := vm_compute; reflexivity.
Ltac wf_by_compute :=
  lazymatch goal with
  | |- wf ?st => apply (bool_decide_unpack (wf st)); vm_compute; exact I
  end.

(** ** The safety invariant *)

Lemma competitors_wall_setup :
  main_setup 1 2 2 [0; 1]%Z [(0, 1)%Z] = Some (competitors_wall [[false; false]]).
Proof. run_call. Qed.

Lemma competitors_wall_unsafe : ¬ chinese_wall_safe (competitors_wall [[true; true]]).
Proof.
  intros Hsafe.
  by pose proof (Hsafe 0 0 1 0%Z 1%Z eq_refl eq_refl eq_refl eq_refl ltac:(done)).
Qed.

(** C1, refuted as stated: two runs of accepted operations from a fresh wall
    end in a state in which subject 0 holds objects of the competing firms 0
    and 1. In the first the policy is set up before any access and the
    subject only reads; in the second the subject only writes, and the
    conflict is registered afterwards. *)
Lemma chinese_wall_safe_counterexample :
  (∃ st0 r1 r2,
     main_setup 1 2 2 [0; 1]%Z [(0, 1)%Z] = Some st0 ∧
     rtc accepted_step (ChineseWall_new 1 2 2) st0 ∧
     read 0 0 st0 = Some r1 ∧ ret r1 = true ∧
     read 0 1 (post r1) = Some r2 ∧ ret r2 = true ∧
     ¬ chinese_wall_safe (post r2)) ∧
  (∃ st0 r1 r2 r3,
     main_setup 1 2 2 [0; 1]%Z [] = Some st0 ∧
     rtc accepted_step (ChineseWall_new 1 2 2) st0 ∧
     write 0 0 st0 = Some r1 ∧ ret r1 = true ∧
     write 0 1 (post r1) = Some r2 ∧ ret r2 = true ∧
     addConflictClass 0 1 (post r2) = Some r3 ∧ cerr r3 = [] ∧
     ¬ chinese_wall_safe (post r3)).
Proof.
  assert (is_int 0 ∧ is_int 1) as [Hi0 Hi1] by (unfold is_int; lia).
  split.
  - exists (competitors_wall [[false; false]]).
    eexists (Run true [] (competitors_wall [[true; false]])).
    eexists (Run true [] (competitors_wall [[true; true]])).
    split_and!; [run_call| |run_call|done|run_call|done|apply competitors_wall_unsafe].
    eapply rtc_l; [by eapply (acc_setObjectOwner 0 0); [|run_call|]|].
    eapply rtc_l; [by eapply (acc_setObjectOwner 1 1); [|run_call|]|].
    eapply rtc_l; [by eapply (acc_addConflictClass 0 1); [| |run_call|]|].
    apply rtc_refl.
  - eexists _, (Run true [] _), (Run true [] _), (Run () [] (competitors_wall [[true; true]])).
    split_and!;
      [run_call| |run_call|done|run_call|done|run_call|done|apply competitors_wall_unsafe].
    eapply rtc_l; [by eapply (acc_setObjectOwner 0 0); [|run_call|]|].
    eapply rtc_l; [by eapply (acc_setObjectOwner 1 1); [|run_call|]|].
    apply rtc_refl.
Qed.

(** C1, as amended: with the ownership map and a symmetric conflict relation
    held fixed, the safety invariant is kept by every run of [start] and
    accepted [write]s. *)
Theorem chinese_wall_safe_write_sessions st st' :
  wf st → conflict_symmetric st → chinese_wall_safe st →
  rtc write_step st st' → chinese_wall_safe st'.
Proof.
  intros Hwf Hsym Hsafe Hsteps.
  cut (wf st' ∧ conflict_symmetric st' ∧ chinese_wall_safe st'); [tauto|].
  induction Hsteps as [|st st1 st2 Hstep _ IH]; [done|].
  apply IH; by eapply write_step_invariant.
Qed.

Lemma competitors_wall_symmetric matrix : conflict_symmetric (competitors_wall matrix).
Proof.
  intros a b Ha Hb. simpl in Ha, Hb.
  assert (a = 0 ∨ a = 1)%Z as [-> | ->] by lia;
    assert (b = 0 ∨ b = 1)%Z as [-> | ->] by lia; done.
Qed.

Lemma chinese_wall_safe_write_sessions_witness :
  chinese_wall_safe (competitors_wall [[false; true]; [true; false]]).
Proof.
  apply (chinese_wall_safe_write_sessions (competitors_wall [[true; false]; [false; false]])).
  - wf_by_compute.
  - apply competitors_wall_symmetric.
  - intros s o1 o2 f1 f2 Hg1 Hg2.
    destruct s as [|[|s]]; destruct o1 as [|[|o1]]; destruct o2 as [|[|o2]];
      try discriminate.
    intros H1 H2. vm_compute in H1, H2. congruence.
  - eapply rtc_l; [apply ws_start|].
    eapply rtc_l; [by eapply (ws_write 0 1); [run_call|]|].
    eapply rtc_l; [by eapply (ws_write 1 0); [run_call|]|].
    apply rtc_refl.
Defined.

(** ** The decision rule of [read] *)

Lemma reread_setup :
  main_setup 2 1 2 [0%Z] [(0, 1)%Z] = Some (single_object_wall [[false]; [false]]).
Proof. run_call. Qed.

Lemma reread_first :
  read 1 0 (single_object_wall [[false]; [false]])
  = Some (Run true [] (single_object_wall [[false]; [true]])).
Proof. run_call. Qed.

(** C2, refuted as stated: after subject 1 has read object 0 (owned by firm
    0, whose conflict set is {1}), the same read is refused, although no
    other subject was granted the object. *)
Lemma read_rule_counterexample :
  ∃ st r,
    (main_setup 2 1 2 [0%Z] [(0, 1)%Z] ≫= read 1 0) = Some (Run true [] st) ∧
    read 1 0 st = Some r ∧ ret r = false ∧
    ¬ ∃ i, i ≠ 1 ∧ granted st i 0 = true.
Proof.
  exists (single_object_wall [[false]; [true]]), (Run false [] (single_object_wall [[false]; [true]])).
  split_and!; [run_call|run_call|done|].
  intros (i & Hne & Hg). by destruct i as [|[|[|i]]].
Qed.

(** C2, as amended: on a well-formed wall and in-range arguments, [read]
    returns; it is refused exactly when some subject [i] (the caller
    included) was granted the object and [i], converted to [int], is in the
    conflict set of the object's owner; a refusal leaves the wall as it was,
    an acceptance sets the one entry of the caller and nothing else. *)
Theorem read_rule st s o :
  wf st → s < subjects st → o < objects st →
  ∃ r fo,
    read s o st = Some r ∧ owner st o = Some fo ∧
    (ret r = false ↔
       ∃ i, i < subjects st ∧ granted st i o = true ∧
            conflicts st fo (int_of_size_t i) = true) ∧
    (ret r = false → post r = st) ∧
    (ret r = true →
       grant s o st = Some (post r) ∧
       ∀ s' o', granted (post r) s' o'
                = if decide (s' = s ∧ o' = o) then true else granted st s' o').
Proof.
  intros Hwf Hs Ho. destruct (read_total s o st Hwf) as [r Hr].
  destruct (read_in_range s o st r Hs Ho Hr) as (fo & Hfo & _ & Hcases).
  exists r, fo. split_and!; [done..| | |].
  - destruct Hcases as [(Hret & _ & Hex)|(Hret & _ & Hall)]; split; try done.
    + congruence.
    + intros (i & Hi & Hg & Hc). rewrite (Hall i Hi Hg) in Hc. done.
  - by eapply read_refused.
  - intros Hret. destruct Hcases as [(? & _)|(_ & Hgrant & _)]; [congruence|].
    split; [done|]. intros s' o'. by eapply granted_grant.
Qed.

Lemma read_rule_witness :
  ∃ r fo,
    read 1 0 (single_object_wall [[false]; [true]]) = Some r ∧
    owner (single_object_wall [[false]; [true]]) 0 = Some fo ∧
    (ret r = false ↔
       ∃ i, i < 2 ∧ granted (single_object_wall [[false]; [true]]) i 0 = true ∧
            conflicts (single_object_wall [[false]; [true]]) fo (int_of_size_t i) = true) ∧
    (ret r = false → post r = single_object_wall [[false]; [true]]) ∧
    (ret r = true →
       grant 1 0 (single_object_wall [[false]; [true]]) = Some (post r) ∧
       ∀ s' o', granted (post r) s' o'
                = if decide (s' = 1 ∧ o' = 0) then true
                  else granted (single_object_wall [[false]; [true]]) s' o').
Proof.
  apply (read_rule (single_object_wall [[false]; [true]]) 1 0).
  - wf_by_compute.
  - simpl. lia.
  - simpl. lia.
Defined.

(** ** Refusals and the access matrix *)

(** C3, evaluated at Scenario 2 of the specification: subject 0 has read
    object 0 of firm 0; its [write] to object 1 of the competing firm 1 is
    refused by the scan of [write], after the inner [read] has set the entry
    of object 1. *)
Lemma refused_write_grants :
  ∃ st r,
    (main_setup 1 2 2 [0; 1]%Z [(0, 1)%Z] ≫= read 0 0) = Some (Run true [] st) ∧
    write 0 1 st = Some r ∧ ret r = false ∧ cerr r = [] ∧
    granted st 0 1 = false ∧ granted (post r) 0 1 = true.
Proof.
  exists (competitors_wall [[true; false]]),
         (Run false [] (competitors_wall [[true; true]])).
  split_and!; try done; run_call.
Qed.

(** ** The decision rule of [write] *)

(** C4: on a well-formed wall and in-range arguments, [write] returns; when
    the inner [read] refuses, [write] returns that refusal; when it accepts,
    [write] refuses exactly when the subject holds an object of another firm
    that is in the conflict set of the object's owner, and otherwise accepts
    with the entry of the subject and object set. *)
Theorem write_rule st s o :
  wf st → s < subjects st → o < objects st →
  ∃ rr r fo,
    read s o st = Some rr ∧ write s o st = Some r ∧ owner st o = Some fo ∧
    (ret rr = false → r = rr) ∧
    (ret rr = true →
       (ret r = false ↔
          ∃ i fi, granted st s i = true ∧ owner st i = Some fi ∧
                  fi ≠ fo ∧ conflicts st fo fi = true) ∧
       (ret r = true → granted (post r) s o = true)).
Proof.
  intros Hwf Hs Ho. destruct (write_total s o st Hwf) as [r Hw].
  destruct (write_in_range s o st r Hs Ho Hw) as (rr & fo & Hr & Hfo & _ & Hcases).
  exists rr, r, fo. split_and!; [done..| |].
  { intros Hret. destruct Hcases as [(_ & ?)|(? & _)]; [done|congruence]. }
  intros Hret. destruct Hcases as [(? & _)|(_ & Hpost & Hscan)]; [congruence|].
  destruct (read_in_range s o st rr Hs Ho Hr)
    as (fo' & _ & _ & [(? & _)|(_ & Hgrant & _)]); [congruence|].
  pose proof (read_wf _ _ _ _ Hr Hwf) as Hwf'.
  destruct (grant_frame _ _ _ _ Hgrant) as (_ & Hm & _).
  assert (∀ i, granted st s i = true → granted (post rr) s i = true) as Hmono.
  { intros i Hg. rewrite (granted_grant _ _ _ _ s i Hgrant). by case_decide. }
  split.
  - destruct Hscan as [(Hf & i & fi & Hi & Hg & Hfi & Hne & Hc)|(Ht & Hall)]; split;
      try done.
    + intros _. exists i, fi. split_and!; try done.
      rewrite (granted_grant _ _ _ _ s i Hgrant) in Hg.
      case_decide as Hso; [|done]. destruct Hso as [_ ->]. congruence.
    + congruence.
    + intros (i & fi & Hg & Hfi & Hne & Hc). apply Hmono in Hg.
      pose proof (granted_in_range _ _ _ Hwf' Hg) as [_ Hi]. rewrite Hm in Hi.
      rewrite (Hall i fi Hi Hg Hfi Hne) in Hc. done.
  - intros _. rewrite Hpost, (granted_grant _ _ _ _ s o Hgrant). by rewrite decide_True.
Qed.

Lemma write_rule_witness :
  ∃ rr r fo,
    read 0 1 (competitors_wall [[true; false]]) = Some rr ∧
    write 0 1 (competitors_wall [[true; false]]) = Some r ∧
    owner (competitors_wall [[true; false]]) 1 = Some fo ∧
    (ret rr = false → r = rr) ∧
    (ret rr = true →
       (ret r = false ↔
          ∃ i fi, granted (competitors_wall [[true; false]]) 0 i = true ∧
                  owner (competitors_wall [[true; false]]) i = Some fi ∧
                  fi ≠ fo ∧ conflicts (competitors_wall [[true; false]]) fo fi = true) ∧
       (ret r = true → granted (post r) 0 1 = true)).
Proof.
  apply (write_rule (competitors_wall [[true; false]]) 0 1).
  - wf_by_compute.
  - simpl. lia.
  - simpl. lia.
Defined.

(** ** Scenario 1 *)

(** C5, evaluated: under the loop of [read] the three calls of Scenario 1
    return accepted, accepted, refused. *)
Lemma scenario1_decisions : scenario1 = Some [true; true; false].
Proof. run_call. Qed.

(** ** Self-conflict *)

(** C6, evaluated: on the wall with one subject, one object and one firm,
    [addConflictClass(0, 0)] is accepted, and it turns the second of two
    reads of object 0 by subject 0 from accepted into refused. *)
Lemma self_conflict_changes_read :
  ∃ st r,
    main_setup 1 1 1 [0%Z] [] = Some st ∧
    addConflictClass 0 0 st = Some r ∧ cerr r = [] ∧
    read_twice st = Some [true; true] ∧
    read_twice (post r) = Some [true; false].
Proof.
  eexists _, (Run () [] _). split_and!; try done; run_call.
Qed.

(** ** Out-of-range arguments *)

(** C7, refuted as stated: with 5 subjects, [read(99, 0)] returns the same
    value as the policy refusal of [read(1, 0)], an in-range call that writes
    no diagnostic. *)
Lemma out_of_range_counterexample :
  ∃ st r1 r2,
    (main_setup 5 1 2 [0%Z] [(0, 1)%Z] ≫= read 1 0) = Some (Run true [] st) ∧
    subjects st = 5 ∧ objects st = 1 ∧
    read 99 0 st = Some r1 ∧ read 1 0 st = Some r2 ∧
    cerr r2 = [] ∧ ret r1 = ret r2 ∧ post r1 = st ∧ post r2 = st.
Proof.
  exists (single_object_wall [[false]; [true]; [false]; [false]; [false]]).
  eexists (Run false [_] _), (Run false [] _).
  split_and!; try done; run_call.
Qed.

(** C7, as amended: on out-of-range arguments [read] and [write] return
    [false], the value of a policy refusal, leave the wall as it was and
    write the diagnostic to [std::cerr]; a call on in-range arguments writes
    no diagnostic, so the diagnostic alone tells the two rejections apart. *)
Theorem out_of_range_rejection st s o :
  subjects st ≤ s ∨ objects st ≤ o →
  read s o st = Some (Run false [invalid_subject_or_object] st) ∧
  write s o st = Some (Run false [invalid_subject_or_object] st) ∧
  ∀ s' o' r, s' < subjects st → o' < objects st →
             read s' o' st = Some r ∨ write s' o' st = Some r → cerr r = [].
Proof.
  intros Hr. split_and!; [by apply read_out_of_range|by apply write_out_of_range|].
  intros s' o' r Hs Ho [H|H].
  - by destruct (read_in_range _ _ _ _ Hs Ho H) as (? & _ & ? & _).
  - by destruct (write_in_range _ _ _ _ Hs Ho H) as (? & ? & _ & _ & ? & _).
Qed.

Lemma out_of_range_rejection_witness :
  read 99 0 (ChineseWall_new 5 1 1)
  = Some (Run false [invalid_subject_or_object] (ChineseWall_new 5 1 1)) ∧
  write 99 0 (ChineseWall_new 5 1 1)
  = Some (Run false [invalid_subject_or_object] (ChineseWall_new 5 1 1)) ∧
  ∀ s' o' r, s' < 5 → o' < 1 →
             read s' o' (ChineseWall_new 5 1 1) = Some r ∨
             write s' o' (ChineseWall_new 5 1 1) = Some r → cerr r = [].
Proof.
  apply (out_of_range_rejection (ChineseWall_new 5 1 1) 99 0).
  left. simpl. lia.
Defined.

(** ** [start] *)

(** C8: [start] after [start] is [start], and after [start] no entry of the
    access matrix is set. *)
Theorem start_idempotent st :
  start (start st) = start st ∧ ∀ s o, granted (start st) s o = false.
Proof.
  split; [|apply granted_start].
  unfold start, set_accessMatrix. simpl. f_equal.
  rewrite map_map. apply map_ext. intros row. by rewrite length_replicate.
Qed.

(** ** Monotonicity *)

Lemma step_post st st' :
  step st st' → accessMatrix st' = accessMatrix st ∨ ∃ s o, grant s o st = Some st'.
Proof.
  intros [s o ? r H|s o ? r H|o f ? r H|f1 f2 ? r H].
  - apply read_post in H as [->|H]; eauto.
  - apply write_post in H as [->|H]; eauto.
  - left. by eapply setObjectOwner_matrix.
  - left. by eapply addConflictClass_matrix.
Qed.

(** C9: along any run of calls of [read], [write], [setObjectOwner] and
    [addConflictClass], whatever their arguments and outcomes, an entry of
    the access matrix that is set stays set. *)
Theorem granted_monotone st st' s o :
  rtc step st st' → granted st s o = true → granted st' s o = true.
Proof.
  induction 1 as [|st st1 st2 Hstep _ IH]; [done|]. intros Hg. apply IH.
  destruct (step_post _ _ Hstep) as [Heq|(s0 & o0 & Hgrant)].
  - unfold granted in *. by rewrite Heq.
  - rewrite (granted_grant _ _ _ _ s o Hgrant). by case_decide.
Qed.

Lemma granted_monotone_witness :
  granted {| subjects := 1; objects := 2; firms := 2;
             accessMatrix := [[true; true]];
             objectOwners := [1; 1]%Z;
             conflictClasses := [{[1%Z]} ∪ {[1%Z]}; {[0%Z]} ∪ ({[1%Z]} ∪ {[0%Z]})] |}
          0 0 = true.
Proof.
  apply (granted_monotone (competitors_wall [[true; false]])).
  - eapply rtc_l; [eapply (step_write 0 1); run_call|].
    eapply rtc_l; [eapply (step_setObjectOwner 0 1); run_call|].
    eapply rtc_l; [eapply (step_addConflictClass 1 1); run_call|].
    eapply rtc_l; [eapply (step_read 5 0); run_call|].
    eapply rtc_l; [eapply (step_read 0 0); run_call|].
    simpl. apply rtc_refl.
  - reflexivity.
Defined.

(** ** Frame *)

(** C10: [start], [read] and [write] leave the owners and the conflict sets
    as they were, [setObjectOwner] and [addConflictClass] leave the access
    matrix as it was, whatever the arguments; on a well-formed wall each of
    the calls returns. *)
Theorem frame_properties st :
  (objectOwners (start st) = objectOwners st ∧
   conflictClasses (start st) = conflictClasses st) ∧
  (∀ s o r, read s o st = Some r →
            objectOwners (post r) = objectOwners st ∧
            conflictClasses (post r) = conflictClasses st) ∧
  (∀ s o r, write s o st = Some r →
            objectOwners (post r) = objectOwners st ∧
            conflictClasses (post r) = conflictClasses st) ∧
  (∀ o f r, setObjectOwner o f st = Some r →
            accessMatrix (post r) = accessMatrix st) ∧
  (∀ f1 f2 r, addConflictClass f1 f2 st = Some r →
              accessMatrix (post r) = accessMatrix st) ∧
  (wf st → ∀ s o f1 f2,
     is_Some (read s o st) ∧ is_Some (write s o st) ∧
     is_Some (setObjectOwner o f1 st) ∧ is_Some (addConflictClass f1 f2 st)).
Proof.
  split_and!.
  - done.
  - done.
  - intros s o r H. by destruct (read_frame _ _ _ _ H) as (_ & _ & _ & ? & ?).
  - intros s o r H. by destruct (write_frame _ _ _ _ H) as (_ & _ & _ & ? & ?).
  - intros o f r H. by eapply setObjectOwner_matrix.
  - intros f1 f2 r H. by eapply addConflictClass_matrix.
  - intros Hwf s o f1 f2.
    split_and!; [by apply read_total|by apply write_total|
                 by apply setObjectOwner_total|by apply addConflictClass_total].
Qed.

Lemma frame_properties_witness :
  (∃ r, write 0 1 (competitors_wall [[true; false]]) = Some r ∧
        objectOwners (post r) = [0; 1]%Z ∧
        conflictClasses (post r) = [{[1%Z]}; {[0%Z]}]) ∧
  (∃ r, addConflictClass 1 1 (competitors_wall [[true; false]]) = Some r ∧
        accessMatrix (post r) = [[true; false]]).
Proof.
  destruct (frame_properties (competitors_wall [[true; false]]))
    as (_ & _ & Hwrite & _ & Hadd & Htotal).
  assert (wf (competitors_wall [[true; false]])) as Hwf by wf_by_compute.
  destruct (Htotal Hwf 0 1 1%Z 1%Z) as (_ & [r Hr] & _ & [r' Hr']).
  split.
  - exists r. split; [done|]. apply (Hwrite 0 1 r Hr).
  - exists r'. split; [done|]. apply (Hadd 1%Z 1%Z r' Hr').
Defined.


(** * Further properties of the class *)

(** ** Strings *)

Lemma append_assoc (s t u : string) : (s +:+ t) +:+ u = s +:+ (t +:+ u).
Proof.
  induction s as [|c s IH]; [done|].
  change (String c ((s +:+ t) +:+ u) = String c (s +:+ (t +:+ u))). by rewrite IH.
Qed.

Lemma append_empty_r (s : string) : s +:+ "" = s.
Proof.
  induction s as [|c s IH]; [done|].
  change (String c (s +:+ "") = String c s). by rewrite IH.
Qed.

Lemma comma_joined_cons (item : string) (items : list string) :
  comma_joined (item :: items)
  = item +:+ match items with [] => "" | _ => ", " +:+ comma_joined items end.
Proof. destruct items; [by rewrite append_empty_r|done]. Qed.

(** ** The loop of the reports *)

(** When the body reads inside the vectors at every index, the loop appends
    to [out] the items of the indices that pass the test, separated by
    [", "]; the separator also comes first when something was listed
    before. *)
Lemma report_loop_spec entry ix es first out :
  Forall2 (λ i e, entry i = Some e) ix es →
  report_loop entry ix first out
  = Some (out +:+ match omap id es with
                  | [] => ""
                  | items => (if first then "" else ", ") +:+ comma_joined items
                  end).
Proof.
  intros H. revert first out. unfold omap.
  induction H as [|i e ix es He _ IH]; intros first out; simpl.
  { by rewrite append_empty_r. }
  rewrite He. simpl. destruct e as [item|]; simpl; [|apply IH].
  rewrite IH, comma_joined_cons. f_equal.
  destruct first; destruct (list_omap _ _ id es); simpl;
    by rewrite ?append_assoc, ?append_empty_r.
Qed.

Lemma Forall2_seq_entry {A} (entry : nat → option A) (g : nat → A) n :
  (∀ i, i < n → entry i = Some (g i)) →
  Forall2 (λ i e, entry i = Some e) (seq 0 n) (g <$> seq 0 n).
Proof.
  intros H. apply Forall2_fmap_r, Forall_Forall2_diag, Forall_forall.
  intros i Hi%elem_of_seq. apply H. lia.
Qed.

Lemma omap_id_fmap {A B} (g : A → option B) (l : list A) :
  omap id (g <$> l) = omap g l.
Proof.
  unfold omap. induction l as [|x l IH]; simpl; [done|].
  destruct (g x); simpl; [f_equal|]; exact IH.
Qed.

Lemma omap_filter_fmap {A B} (P : A → Prop) `{∀ x, Decision (P x)}
    (h : A → B) (l : list A) :
  omap (λ x, if decide (P x) then Some (h x) else None) l = h <$> filter P l.
Proof.
  unfold omap. induction l as [|x l IH]; simpl; [done|].
  rewrite filter_cons. case_decide; simpl; [f_equal|]; exact IH.
Qed.

Lemma report_loop_text entry (g : nat → option string) n header :
  (∀ i, i < n → entry i = Some (g i)) →
  report_loop entry (seq 0 n) true header
  = Some (header +:+ comma_joined (omap g (seq 0 n))).
Proof.
  intros H.
  rewrite (report_loop_spec entry (seq 0 n) (g <$> seq 0 n) true header)
    by by apply Forall2_seq_entry.
  rewrite omap_id_fmap. by destruct (omap g (seq 0 n)).
Qed.

Lemma omap_fmap_option {A B C} (h : A → option B) (k : B → C) (l : list A) :
  omap (λ x, k <$> h x) l = k <$> omap h l.
Proof.
  unfold omap. induction l as [|x l IH]; simpl; [done|].
  destruct (h x); simpl; [f_equal|]; exact IH.
Qed.

(** ** [reportSubject] *)

Lemma elem_of_subject_accesses st s i w :
  (i, w) ∈ subject_accesses st s ↔
  i < objects st ∧ granted st s i = true ∧ owner st i = Some w.
Proof.
  unfold subject_accesses. rewrite list_elem_of_omap. split.
  - intros (j & Hj%elem_of_seq & Hsel).
    destruct (granted st s j) eqn:Hg; [|done].
    destruct (owner st j) as [w'|] eqn:Hw; [|done].
    injection Hsel as -> ->. split_and!; [lia|done..].
  - intros (Hi & Hg & Hw). exists i. rewrite elem_of_seq, Hg, Hw. split; [lia|done].
Qed.

Lemma reportSubject_entry_wf st s i :
  wf st → s < subjects st → i < objects st →
  reportSubject_entry st s i
  = Some (if granted st s i
          then (λ p : nat * Z, subject_item p.1 p.2) <$> (pair i <$> owner st i)
          else None).
Proof.
  intros Hwf Hs Hi. unfold reportSubject_entry.
  destruct (wf_entry st s i Hwf Hs Hi) as (row & a & Hrow & _ & Ha).
  rewrite Hrow. simpl. rewrite Ha. simpl.
  rewrite (granted_entry _ _ _ _ _ Hrow Ha).
  destruct a; [|done].
  destruct (wf_owner st i Hwf Hi) as (w & Hw & _). rewrite Hw.
  unfold owner in Hw. by rewrite Hw.
Qed.

Lemma reportSubject_text st s :
  wf st → s < subjects st →
  reportSubject s st
  = Some (Printed ("Subject " +:+ pretty s +:+ " accessed: " +:+
                   comma_joined ((λ p, subject_item p.1 p.2) <$> subject_accesses st s)
                   +:+ endl) []).
Proof.
  intros Hwf Hs.
  - unfold reportSubject. rewrite decide_False by lia.
    rewrite (report_loop_text _
               (λ i, if granted st s i
                     then (λ p : nat * Z, subject_item p.1 p.2) <$> (pair i <$> owner st i)
                     else None))
      by (intros i Hi; by apply reportSubject_entry_wf).
    simpl. unfold subject_accesses. rewrite <- omap_fmap_option.
    assert (∀ l : list nat,
              omap (λ i, if granted st s i
                         then (λ p : nat * Z, subject_item p.1 p.2) <$> (pair i <$> owner st i)
                         else None) l
              = omap (λ x, (λ p : nat * Z, subject_item p.1 p.2) <$>
                           (if granted st s x then pair x <$> owner st x else None)) l)
      as ->.
    { intros l. apply list_omap_ext, Forall_Forall2_diag, Forall_forall.
      intros i _. by destruct (granted st s i). }
    by rewrite !append_assoc.
Qed.

(** On a well-formed wall and an in-range subject, [reportSubject] prints the
    heading, then the objects the subject holds, in increasing order, each
    with its owner, separated by [", "], then a line feed; it prints nothing
    on [std::cerr]. *)
Theorem reportSubject_lists_accesses st s :
  wf st → s < subjects st →
  reportSubject s st
  = Some (Printed ("Subject " +:+ pretty s +:+ " accessed: " +:+
                   comma_joined ((λ p, subject_item p.1 p.2) <$> subject_accesses st s)
                   +:+ endl) []) ∧
  ∀ i w, (i, w) ∈ subject_accesses st s ↔
         granted st s i = true ∧ owner st i = Some w.
Proof.
  intros Hwf Hs. split; [by apply reportSubject_text|].
  intros i w. rewrite elem_of_subject_accesses. split; [tauto|].
  intros [Hg Hw]. split; [|done].
  apply lookup_lt_Some in Hw. destruct Hwf as (_ & _ & <- & _). done.
Qed.

Lemma reportSubject_lists_accesses_witness :
  reportSubject 0 (competitors_wall [[true; true]])
  = Some (Printed ("Subject " +:+ pretty 0 +:+ " accessed: " +:+
                   comma_joined ((λ p, subject_item p.1 p.2)
                                 <$> subject_accesses (competitors_wall [[true; true]]) 0)
                   +:+ endl) []) ∧
  ∀ i w, (i, w) ∈ subject_accesses (competitors_wall [[true; true]]) 0 ↔
         granted (competitors_wall [[true; true]]) 0 i = true ∧
         owner (competitors_wall [[true; true]]) i = Some w.
Proof.
  apply (reportSubject_lists_accesses (competitors_wall [[true; true]]) 0).
  - wf_by_compute.
  - simpl. lia.
Defined.

(** ** [reportObject] *)

Lemma reportObject_entry_wf st o i :
  wf st → o < objects st → i < subjects st →
  reportObject_entry st o i
  = Some (if decide (granted st i o = true) then Some (object_item i) else None).
Proof.
  intros Hwf Ho Hi. unfold reportObject_entry.
  destruct (wf_entry st i o Hwf Hi Ho) as (row & a & Hrow & _ & Ha).
  rewrite Hrow. simpl. rewrite Ha. simpl.
  rewrite (granted_entry _ _ _ _ _ Hrow Ha). by destruct a.
Qed.

Lemma reportObject_text st o :
  wf st → o < objects st →
  reportObject o st
  = Some (Printed ("Object " +:+ pretty o +:+ " was accessed by: " +:+
                   comma_joined (object_item <$> object_accessors st o)
                   +:+ endl) []).
Proof.
  intros Hwf Ho. unfold reportObject. rewrite decide_False by lia.
  rewrite (report_loop_text _
             (λ i, if decide (granted st i o = true) then Some (object_item i) else None))
    by (intros i Hi; by apply reportObject_entry_wf).
  simpl. rewrite omap_filter_fmap. by rewrite !append_assoc.
Qed.

(** On a well-formed wall and an in-range object, [reportObject] prints the
    heading, then the subjects that hold the object, in increasing order,
    separated by [", "], then a line feed; it prints nothing on
    [std::cerr]. *)
Theorem reportObject_lists_accessors st o :
  wf st → o < objects st →
  reportObject o st
  = Some (Printed ("Object " +:+ pretty o +:+ " was accessed by: " +:+
                   comma_joined (object_item <$> object_accessors st o)
                   +:+ endl) []) ∧
  ∀ i, i ∈ object_accessors st o ↔ granted st i o = true.
Proof.
  intros Hwf Ho. split; [by apply reportObject_text|].
  - intros i. unfold object_accessors. rewrite list_elem_of_filter, elem_of_seq.
    split; [tauto|]. intros Hg. split; [done|].
    destruct (granted_in_range _ _ _ Hwf Hg). lia.
Qed.

Lemma reportObject_lists_accessors_witness :
  reportObject 0 (single_object_wall [[false]; [true]; [true]])
  = Some (Printed ("Object " +:+ pretty 0 +:+ " was accessed by: " +:+
                   comma_joined (object_item <$>
                     object_accessors (single_object_wall [[false]; [true]; [true]]) 0)
                   +:+ endl) []) ∧
  ∀ i, i ∈ object_accessors (single_object_wall [[false]; [true]; [true]]) 0 ↔
       granted (single_object_wall [[false]; [true]; [true]]) i 0 = true.
Proof.
  apply (reportObject_lists_accessors (single_object_wall [[false]; [true]; [true]]) 0).
  - wf_by_compute.
  - simpl. lia.
Defined.

(** ** [briefCase] *)

Lemma briefCase_entry_wf st firm i :
  wf st → i < objects st →
  briefCase_entry st firm i
  = Some (if decide (owner st i = Some firm) then Some (portfolio_item i) else None).
Proof.
  intros Hwf Hi. unfold briefCase_entry.
  destruct (wf_owner st i Hwf Hi) as (w & Hw & _). rewrite Hw.
  unfold owner in Hw. rewrite Hw. simpl.
  destruct (decide (w = firm)) as [->|Hne].
  - by rewrite decide_True.
  - rewrite decide_False; [done|congruence].
Qed.

(** On a well-formed wall and for an [int] argument, [briefCase] rejects a
    firm id that is negative or not below [firms] with the diagnostic alone;
    for a firm id in range it prints the heading, then the objects the firm
    owns, in increasing order, separated by [", "], then a line feed. *)
Theorem briefCase_lists_portfolio st firm :
  wf st → is_int firm →
  briefCase firm st
  = Some (if decide (0 ≤ firm < Z.of_nat (firms st))%Z
          then Printed ("Firm " +:+ pretty firm +:+ " portfolio: " +:+
                        comma_joined (portfolio_item <$> portfolio st firm)
                        +:+ endl) []
          else Printed "" [invalid_firm]) ∧
  ∀ i, i ∈ portfolio st firm ↔ owner st i = Some firm.
Proof.
  intros Hwf Hint. pose proof Hwf as (_ & _ & Hlen & _ & _ & Hbound). split.
  - unfold briefCase. destruct (int_ge_size_t firm (firms st)) eqn:Hge.
    + rewrite decide_True by done. rewrite decide_False; [done|].
      intros Hr. by rewrite (int_lt_size_t_total firm (firms st)) in Hge.
    + rewrite decide_False by done.
      destruct (int_lt_size_t firm _ Hint Hbound Hge) as [Hr _].
      rewrite decide_True by done.
      rewrite (report_loop_text _
                 (λ i, if decide (owner st i = Some firm)
                       then Some (portfolio_item i) else None))
        by (intros i Hi; by apply briefCase_entry_wf).
      simpl. rewrite omap_filter_fmap. by rewrite !append_assoc.
  - intros i. unfold portfolio. rewrite list_elem_of_filter, elem_of_seq.
    split; [tauto|]. intros Hw. split; [done|].
    apply lookup_lt_Some in Hw. lia.
Qed.

Lemma briefCase_lists_portfolio_witness :
  briefCase 1 (competitors_wall [[true; true]])
  = Some (if decide (0 ≤ 1 < Z.of_nat 2)%Z
          then Printed ("Firm " +:+ pretty 1%Z +:+ " portfolio: " +:+
                        comma_joined (portfolio_item <$>
                                      portfolio (competitors_wall [[true; true]]) 1)
                        +:+ endl) []
          else Printed "" [invalid_firm]) ∧
  ∀ i, i ∈ portfolio (competitors_wall [[true; true]]) 1 ↔
       owner (competitors_wall [[true; true]]) i = Some 1%Z.
Proof.
  apply (briefCase_lists_portfolio (competitors_wall [[true; true]]) 1).
  - wf_by_compute.
  - unfold is_int. lia.
Defined.

(** ** Reports after [start] *)

Lemma subject_accesses_none st s :
  (∀ i, granted st s i = false) → subject_accesses st s = [].
Proof.
  intros H. unfold subject_accesses.
  induction (seq 0 (objects st)) as [|i l IH]; [done|].
  unfold omap in *. simpl. by rewrite H.
Qed.

Lemma object_accessors_none st o :
  (∀ i, granted st i o = false) → object_accessors st o = [].
Proof.
  intros H. unfold object_accessors.
  induction (seq 0 (subjects st)) as [|i l IH]; [done|].
  rewrite filter_cons, decide_False; [done|]. by rewrite H.
Qed.

(** After [start] the reports list nothing: on a well-formed wall,
    [reportSubject] and [reportObject] print the heading and the line feed
    alone (Scenario 3 of the specification). *)
Theorem reports_after_start st s o :
  wf st → s < subjects st → o < objects st →
  reportSubject s (start st)
  = Some (Printed ("Subject " +:+ pretty s +:+ " accessed: " +:+ endl) []) ∧
  reportObject o (start st)
  = Some (Printed ("Object " +:+ pretty o +:+ " was accessed by: " +:+ endl) []).
Proof.
  intros Hwf Hs Ho. pose proof (start_wf st Hwf) as Hwf'. split.
  - rewrite (reportSubject_text (start st) s Hwf' Hs).
    by rewrite subject_accesses_none by (intros; apply granted_start).
  - rewrite (reportObject_text (start st) o Hwf' Ho).
    by rewrite object_accessors_none by (intros; apply granted_start).
Qed.

Lemma reports_after_start_witness :
  reportSubject 0 (start (competitors_wall [[true; true]]))
  = Some (Printed ("Subject " +:+ pretty 0 +:+ " accessed: " +:+ endl) []) ∧
  reportObject 1 (start (competitors_wall [[true; true]]))
  = Some (Printed ("Object " +:+ pretty 1 +:+ " was accessed by: " +:+ endl) []).
Proof.
  apply (reports_after_start (competitors_wall [[true; true]]) 0 1).
  - wf_by_compute.
  - simpl. lia.
  - simpl. lia.
Defined.

(** ** Decisions of [read] and [write] on a well-formed wall *)

Lemma read_decision s o st :
  wf st → s < subjects st → o < objects st →
  ∃ r fo,
    read s o st = Some r ∧ owner st o = Some fo ∧ cerr r = [] ∧
    (ret r = true ↔
       ∀ i, i < subjects st → granted st i o = true →
            conflicts st fo (int_of_size_t i) = false) ∧
    (ret r = true → grant s o st = Some (post r)) ∧
    (ret r = false → post r = st).
Proof.
  intros Hwf Hs Ho. destruct (read_total s o st Hwf) as [r Hr].
  destruct (read_in_range s o st r Hs Ho Hr) as (fo & Hfo & Hcerr & Hcases).
  exists r, fo. split_and!; [done..| | |].
  - destruct Hcases as [(Hret & _ & i & Hi & Hg & Hc)|(Hret & _ & Hall)].
    + split; [congruence|]. intros Hall. rewrite (Hall i Hi Hg) in Hc. done.
    + by split.
  - intros Hret. destruct Hcases as [(? & _)|(_ & ? & _)]; [congruence|done].
  - by eapply read_refused.
Qed.

Lemma write_decision s o st :
  wf st → s < subjects st → o < objects st →
  ∃ r fo,
    write s o st = Some r ∧ owner st o = Some fo ∧ cerr r = [] ∧
    (ret r = true ↔
       (∀ i, i < subjects st → granted st i o = true →
             conflicts st fo (int_of_size_t i) = false) ∧
       (∀ i fi, granted st s i = true → owner st i = Some fi → fi ≠ fo →
                conflicts st fo fi = false)).
Proof.
  intros Hwf Hs Ho. destruct (write_total s o st Hwf) as [r Hw].
  destruct (write_in_range s o st r Hs Ho Hw) as (rr & fo & Hr & Hfo & Hcerr & Hcases).
  destruct (read_decision s o st Hwf Hs Ho) as (rr' & fo' & Hr' & Hfo' & _ & Hiff & Hg & _).
  assert (rr' = rr) as -> by congruence. assert (fo' = fo) as -> by congruence.
  exists r, fo. split_and!; [done..|].
  destruct Hcases as [(Hret & ->)|(Hret & Hpost & Hscan)].
  { split; [congruence|]. intros [Hall _]. apply Hiff in Hall. congruence. }
  pose proof (Hg Hret) as Hgrant.
  pose proof (read_wf _ _ _ _ Hr Hwf) as Hwf'.
  destruct (grant_frame _ _ _ _ Hgrant) as (_ & Hm & _).
  destruct Hscan as [(Hf & i & fi & Hi & Hgi & Hfi & Hne & Hc)|(Ht & Hall)].
  - split; [congruence|]. intros [_ Hno]. exfalso.
    rewrite (granted_grant _ _ _ _ s i Hgrant) in Hgi.
    case_decide as Hso.
    + destruct Hso as [_ ->]. congruence.
    + rewrite (Hno i fi Hgi Hfi Hne) in Hc. done.
  - split; [|done]. intros _. split; [by apply Hiff|].
    intros i fi Hgi Hfi Hne.
    assert (granted (post rr) s i = true) as Hgi'.
    { rewrite (granted_grant _ _ _ _ s i Hgrant). by case_decide. }
    pose proof (granted_in_range _ _ _ Hwf' Hgi') as [_ Hi]. rewrite Hm in Hi.
    by apply (Hall i fi).
Qed.

(** ** First access to an object *)

(** On a well-formed wall, a [read] of an object that no subject holds is
    accepted, whoever asks and whatever the conflict sets are. *)
Theorem untouched_object_read_accepted st s o :
  wf st → s < subjects st → o < objects st →
  (∀ i, granted st i o = false) →
  ∃ r, read s o st = Some r ∧ ret r = true ∧ cerr r = [] ∧
       grant s o st = Some (post r).
Proof.
  intros Hwf Hs Ho Hnone.
  destruct (read_decision s o st Hwf Hs Ho) as (r & fo & Hr & _ & Hcerr & Hiff & Hg & _).
  assert (ret r = true) as Hret.
  { apply Hiff. intros i _ Hgi. rewrite Hnone in Hgi. done. }
  exists r. split_and!; [done..|]. by apply Hg.
Qed.

Lemma untouched_object_read_accepted_witness :
  ∃ r, read 1 1 (competitors_wall [[true; false]; [false; false]]) = Some r ∧
       ret r = true ∧ cerr r = [] ∧
       grant 1 1 (competitors_wall [[true; false]; [false; false]]) = Some (post r).
Proof.
  apply (untouched_object_read_accepted
           (competitors_wall [[true; false]; [false; false]]) 1 1).
  - wf_by_compute.
  - simpl. lia.
  - simpl. lia.
  - intros [|[|i]]; reflexivity.
Defined.

(** ** The requester does not matter to [read] *)

(** On a well-formed wall, whether [read] accepts an object does not depend
    on the subject that asks: two in-range subjects get the same answer for
    the same object. *)
Theorem read_ignores_requester st s s' o :
  wf st → s < subjects st → s' < subjects st → o < objects st →
  ∃ r r', read s o st = Some r ∧ read s' o st = Some r' ∧ ret r = ret r'.
Proof.
  intros Hwf Hs Hs' Ho.
  destruct (read_decision s o st Hwf Hs Ho) as (r & fo & Hr & Hfo & _ & Hiff & _).
  destruct (read_decision s' o st Hwf Hs' Ho) as (r' & fo' & Hr' & Hfo' & _ & Hiff' & _).
  assert (fo' = fo) as -> by congruence.
  exists r, r'. split_and!; [done..|].
  destruct (ret r) eqn:E, (ret r') eqn:E'; try done.
  - symmetry. apply Hiff'. by apply Hiff.
  - apply Hiff. by apply Hiff'.
Qed.

Lemma read_ignores_requester_witness :
  ∃ r r', read 0 0 (single_object_wall [[false]; [true]]) = Some r ∧
          read 1 0 (single_object_wall [[false]; [true]]) = Some r' ∧ ret r = ret r'.
Proof.
  apply (read_ignores_requester (single_object_wall [[false]; [true]]) 0 1 0).
  - wf_by_compute.
  - simpl. lia.
  - simpl. lia.
  - simpl. lia.
Defined.

(** ** After [start], and without conflicts *)

(** On a well-formed wall, right after [start] every in-range [read] and
    every in-range [write] is accepted. *)
Theorem after_start_accepted st s o :
  wf st → s < subjects st → o < objects st →
  ∃ r w, read s o (start st) = Some r ∧ ret r = true ∧
         write s o (start st) = Some w ∧ ret w = true.
Proof.
  intros Hwf Hs Ho. pose proof (start_wf st Hwf) as Hwf'.
  destruct (read_decision s o (start st) Hwf' Hs Ho) as (r & fo & Hr & Hfo & _ & Hiff & _).
  destruct (write_decision s o (start st) Hwf' Hs Ho) as (w & fo' & Hw & _ & _ & Hiffw).
  exists r, w. split_and!; [done| |done|].
  - apply Hiff. intros i _ Hg. by rewrite granted_start in Hg.
  - apply Hiffw. split.
    + intros i _ Hg. by rewrite granted_start in Hg.
    + intros i fi Hg. by rewrite granted_start in Hg.
Qed.

Lemma after_start_accepted_witness :
  ∃ r w, read 0 1 (start (competitors_wall [[true; false]])) = Some r ∧ ret r = true ∧
         write 0 1 (start (competitors_wall [[true; false]])) = Some w ∧ ret w = true.
Proof.
  apply (after_start_accepted (competitors_wall [[true; false]]) 0 1).
  - wf_by_compute.
  - simpl. lia.
  - simpl. lia.
Defined.

(** On a well-formed wall on which no conflict is registered, every in-range
    [read] and every in-range [write] is accepted. *)
Theorem no_conflict_accepted st s o :
  wf st → (∀ a b, conflicts st a b = false) →
  s < subjects st → o < objects st →
  ∃ r w, read s o st = Some r ∧ ret r = true ∧
         write s o st = Some w ∧ ret w = true.
Proof.
  intros Hwf Hnone Hs Ho.
  destruct (read_decision s o st Hwf Hs Ho) as (r & fo & Hr & Hfo & _ & Hiff & _).
  destruct (write_decision s o st Hwf Hs Ho) as (w & fo' & Hw & _ & _ & Hiffw).
  exists r, w. split_and!; [done| |done|].
  - apply Hiff. intros. apply Hnone.
  - apply Hiffw. split; intros; apply Hnone.
Qed.

Lemma no_conflict_accepted_witness :
  ∃ r w, read 0 0 (ChineseWall_new 2 3 4) = Some r ∧ ret r = true ∧
         write 0 0 (ChineseWall_new 2 3 4) = Some w ∧ ret w = true.
Proof.
  apply (no_conflict_accepted (ChineseWall_new 2 3 4) 0 0).
  - wf_by_compute.
  - apply ChineseWall_new_conflicts.
  - simpl. lia.
  - simpl. lia.
Defined.

(** ** A wall without firms *)




(** ** [write] acts on the wall as its inner [read] *)

(** Whenever [write] returns, [read] on the same arguments returns too, with
    the same diagnostics and the same wall afterwards; and [write] accepts
    only what [read] accepts. *)
Theorem write_acts_as_read st s o w :
  write s o st = Some w →
  ∃ r, read s o st = Some r ∧ post w = post r ∧ cerr w = cerr r ∧
       (ret w = true → ret r = true).
Proof.
  intros Hw. destruct (decide (subjects st ≤ s ∨ objects st ≤ o)) as [Hr|Hr].
  - rewrite write_out_of_range in Hw by done. injection Hw as <-.
    eexists. split; [by apply read_out_of_range|done].
  - destruct (write_in_range s o st w) as (r & fo & Hread & _ & Hcerr & Hcases);
      [lia|lia|done|].
    exists r. split; [done|].
    destruct (read_in_range s o st r) as (_ & _ & Hcerr' & _); [lia|lia|done|].
    destruct Hcases as [(_ & ->)|(Hret & Hpost & _)]; [done|].
    split_and!; [done|congruence|done].
Qed.

Lemma write_acts_as_read_witness :
  ∃ r, read 0 1 (competitors_wall [[true; false]]) = Some r ∧
       post (Run false [] (competitors_wall [[true; true]])) = post r ∧
       cerr (Run false [] (competitors_wall [[true; true]])) = cerr r ∧
       (ret (Run false [] (competitors_wall [[true; true]])) = true → ret r = true).
Proof.
  apply (write_acts_as_read (competitors_wall [[true; false]]) 0 1).
  vm_compute. reflexivity.
Defined.

(** ** [setObjectOwner] *)

(** On a well-formed wall and for an [int] firm id, [setObjectOwner] returns.
    With the object in range and the firm id between 0 and [firms] it
    prints nothing, makes the firm the owner of the object and leaves every
    other owner, the matrix and the conflict sets as they were. Otherwise (a
    negative firm id included) it prints the diagnostic and changes
    nothing. *)
Theorem setObjectOwner_effect st o w :
  wf st → is_int w →
  ∃ r, setObjectOwner o w st = Some r ∧
    if decide (o < objects st ∧ (0 ≤ w < Z.of_nat (firms st))%Z)
    then cerr r = [] ∧ owner (post r) o = Some w ∧
         (∀ o', o' ≠ o → owner (post r) o' = owner st o') ∧
         accessMatrix (post r) = accessMatrix st ∧
         conflictClasses (post r) = conflictClasses st
    else r = Run () [invalid_object_or_firm] st.
Proof.
  intros Hwf Hint. pose proof Hwf as (_ & _ & Hlen & _ & _ & Hbound).
  destruct (setObjectOwner_total o w st Hwf) as [r Hr]. exists r. split; [done|].
  apply setObjectOwner_inv in Hr as [(Hcerr & Hpost & Hrej)|(Hcerr & Ho & Hge & _ & Hpost)].
  - rewrite decide_False.
    + destruct r as [[] ? ?]. simpl in *. by subst.
    + intros [Ho Hw]. destruct Hrej as [?|Hge]; [lia|].
      by rewrite (int_lt_size_t_total w (firms st)) in Hge.
  - destruct (int_lt_size_t w _ Hint Hbound Hge) as [Hw _].
    rewrite decide_True by done. rewrite Hpost. unfold owner. simpl.
    split_and!; [done| | |done..].
    + apply list_lookup_insert_eq. lia.
    + intros o' Hne. by apply list_lookup_insert_ne.
Qed.

Lemma setObjectOwner_effect_witness :
  ∃ r, setObjectOwner 0 (-1) (competitors_wall [[true; false]]) = Some r ∧
    if decide (0 < 2 ∧ (0 ≤ -1 < Z.of_nat 2)%Z)
    then cerr r = [] ∧ owner (post r) 0 = Some (-1)%Z ∧
         (∀ o', o' ≠ 0 → owner (post r) o' = owner (competitors_wall [[true; false]]) o') ∧
         accessMatrix (post r) = [[true; false]] ∧
         conflictClasses (post r) = [{[1%Z]}; {[0%Z]}]
    else r = Run () [invalid_object_or_firm] (competitors_wall [[true; false]]).
Proof.
  apply (setObjectOwner_effect (competitors_wall [[true; false]]) 0 (-1)).
  - wf_by_compute.
  - unfold is_int. lia.
Defined.

(** ** [addConflictClass] *)

Lemma addConflictClass_accepted st f1 f2 r :
  wf st → is_int f1 → is_int f2 →
  addConflictClass f1 f2 st = Some r → cerr r = [] →
  (0 ≤ f1 < Z.of_nat (firms st))%Z ∧ (0 ≤ f2 < Z.of_nat (firms st))%Z ∧
  subjects (post r) = subjects st ∧ objects (post r) = objects st ∧
  firms (post r) = firms st ∧
  accessMatrix (post r) = accessMatrix st ∧
  objectOwners (post r) = objectOwners st ∧
  ∀ a b, (0 ≤ a < Z.of_nat (firms st))%Z →
    (conflicts (post r) a b = true ↔
     conflicts st a b = true ∨ (a = f1 ∧ b = f2) ∨ (a = f2 ∧ b = f1)).
Proof.
  intros Hwf Hi1 Hi2 H Hcerr. pose proof Hwf as (_ & _ & _ & _ & _ & Hbound).
  apply addConflictClass_inv in H
    as [(Hc & _)|(_ & Hf1 & Hf2 & st1 & H1 & H2)]; [congruence|].
  destruct (int_lt_size_t f1 _ Hi1 Hbound Hf1) as [Hr1 _].
  destruct (int_lt_size_t f2 _ Hi2 Hbound Hf2) as [Hr2 _].
  pose proof (insert_conflict_wf _ _ _ _ H1 Hwf) as Hwf1.
  pose proof H1 as (c1 & _ & E1)%insert_conflict_inv.
  pose proof H2 as (c2 & _ & E2)%insert_conflict_inv.
  assert (firms st1 = firms st) as Hfirms1 by by rewrite E1.
  split; [done|]. split; [done|].
  split_and!; [by rewrite E2, E1..|].
  intros a b Ha.
  rewrite (conflicts_insert_conflict f2 f1 st1 (post r)) by (done || lia).
  rewrite (conflicts_insert_conflict f1 f2 st st1) by (done || lia).
  tauto.
Qed.

Lemma addConflictClass_rejected st f1 f2 r :
  wf st → addConflictClass f1 f2 st = Some r → cerr r ≠ [] →
  r = Run () [invalid_firm] st ∧
  ¬ ((0 ≤ f1 < Z.of_nat (firms st))%Z ∧ (0 ≤ f2 < Z.of_nat (firms st))%Z).
Proof.
  intros Hwf H Hcerr. pose proof Hwf as (_ & _ & _ & _ & _ & Hbound).
  apply addConflictClass_inv in H as [(Hc & Hpost & Hrej)|(Hc & _)]; [|congruence].
  split.
  - destruct r as [[] ? ?]. simpl in *. by subst.
  - intros [H1 H2].
    destruct Hrej as [Hge|Hge];
      by rewrite (int_lt_size_t_total _ (firms st)) in Hge.
Qed.

(** On a well-formed wall and for [int] firm ids, [addConflictClass]
    returns. With both ids between 0 and [firms] it prints nothing, leaves
    the matrix and the owners as they were, and makes the two firms conflict
    in both directions, adding nothing else to the relation. When either id
    is out of range (negative included) it prints the diagnostic and changes
    nothing: the pair is not recorded in either direction. *)
Theorem addConflictClass_effect st f1 f2 :
  wf st → is_int f1 → is_int f2 →
  ∃ r, addConflictClass f1 f2 st = Some r ∧
    if decide ((0 ≤ f1 < Z.of_nat (firms st))%Z ∧ (0 ≤ f2 < Z.of_nat (firms st))%Z)
    then cerr r = [] ∧
         accessMatrix (post r) = accessMatrix st ∧
         objectOwners (post r) = objectOwners st ∧
         ∀ a b, (0 ≤ a < Z.of_nat (firms st))%Z →
           (conflicts (post r) a b = true ↔
            conflicts st a b = true ∨ (a = f1 ∧ b = f2) ∨ (a = f2 ∧ b = f1))
    else r = Run () [invalid_firm] st.
Proof.
  intros Hwf Hi1 Hi2.
  destruct (addConflictClass_total f1 f2 st Hwf) as [r Hr]. exists r. split; [done|].
  destruct (decide (cerr r = [])) as [Hc|Hc].
  - destruct (addConflictClass_accepted st f1 f2 r) as (? & ? & _ & _ & _ & ? & ? & ?);
      [done..|].
    by rewrite decide_True.
  - destruct (addConflictClass_rejected st f1 f2 r) as [-> ?]; [done..|].
    by rewrite decide_False.
Qed.

Lemma addConflictClass_effect_witness :
  ∃ r, addConflictClass 0 1 (ChineseWall_new 1 2 3) = Some r ∧
    if decide ((0 ≤ 0 < Z.of_nat 3)%Z ∧ (0 ≤ 1 < Z.of_nat 3)%Z)
    then cerr r = [] ∧
         accessMatrix (post r) = accessMatrix (ChineseWall_new 1 2 3) ∧
         objectOwners (post r) = objectOwners (ChineseWall_new 1 2 3) ∧
         ∀ a b, (0 ≤ a < Z.of_nat 3)%Z →
           (conflicts (post r) a b = true ↔
            conflicts (ChineseWall_new 1 2 3) a b = true ∨
            (a = 0%Z ∧ b = 1%Z) ∨ (a = 1%Z ∧ b = 0%Z))
    else r = Run () [invalid_firm] (ChineseWall_new 1 2 3).
Proof.
  apply (addConflictClass_effect (ChineseWall_new 1 2 3) 0 1).
  - wf_by_compute.
  - unfold is_int. lia.
  - unfold is_int. lia.
Defined.

Lemma insert_conflict_absorb f x st cls :
  at_int (conflictClasses st) f = Some cls → x ∈ cls →
  insert_conflict f x st = Some st.
Proof.
  intros Hcls Hx. unfold insert_conflict. rewrite Hcls. simpl. f_equal.
  assert ({[x]} ∪ cls = cls) as ->
    by by apply subseteq_union_1_L, singleton_subseteq_l.
  unfold at_int in Hcls. rewrite list_insert_id by done. by destruct st.
Qed.

Lemma insert_conflict_lookup f x st st' g :
  insert_conflict f x st = Some st' →
  ∃ cls, at_int (conflictClasses st) f = Some cls ∧
    at_int (conflictClasses st') g
    = if decide (Z.to_nat (size_t_of_int g) = Z.to_nat (size_t_of_int f))
      then Some ({[x]} ∪ cls) else at_int (conflictClasses st) g.
Proof.
  intros (cls & Hcls & ->)%insert_conflict_inv. exists cls. split; [done|].
  unfold at_int in *. simpl. apply lookup_lt_Some in Hcls as Hlt.
  case_decide as Heq.
  - rewrite Heq. by apply list_lookup_insert_eq.
  - by apply list_lookup_insert_ne.
Qed.

(** Registering the same pair again changes nothing: the second call returns
    what the first returned and leaves the wall as the first left it. *)
Theorem addConflictClass_idempotent st f1 f2 r :
  addConflictClass f1 f2 st = Some r →
  addConflictClass f1 f2 (post r) = Some r.
Proof.
  intros H.
  pose proof H as [(Hc & Hpost & _)|(Hc & Hf1 & Hf2 & st1 & H1 & H2)]%addConflictClass_inv.
  { by rewrite Hpost. }
  assert (firms (post r) = firms st) as Hfirms.
  { apply insert_conflict_inv in H1 as (? & _ & ->).
    by apply insert_conflict_inv in H2 as (? & _ & ->). }
  unfold addConflictClass. rewrite Hfirms, Hf1, Hf2.
  rewrite decide_False by (intros [?|?]; done).
  destruct (insert_conflict_lookup _ _ _ _ f1 H1) as (c1 & _ & L11).
  rewrite decide_True in L11 by done.
  destruct (insert_conflict_lookup _ _ _ _ f1 H2) as (c2 & L12 & L21).
  destruct (insert_conflict_lookup _ _ _ _ f2 H2) as (c2' & L12' & L22).
  rewrite decide_True in L22 by done.
  assert (c2' = c2) as -> by congruence.
  assert (∃ c, at_int (conflictClasses (post r)) f1 = Some c ∧ f2 ∈ c) as (c & Hc1 & Hin).
  { case_decide as Heq.
    - eexists. split; [done|].
      unfold at_int in L11, L12. rewrite Heq in L11.
      assert (c2 = {[f2]} ∪ c1) as -> by congruence. set_solver.
    - eexists. split; [by rewrite L21|]. set_solver. }
  rewrite (insert_conflict_absorb f1 f2 (post r) c Hc1 Hin). simpl.
  rewrite (insert_conflict_absorb f2 f1 (post r) _ L22) by set_solver. simpl.
  destruct r as [[] ? ?]. simpl in *. by subst.
Qed.

Lemma addConflictClass_idempotent_witness :
  addConflictClass 0 1 (competitors_wall [[true; false]])
  = Some (Run () [] (competitors_wall [[true; false]])).
Proof.
  apply (addConflictClass_idempotent
           (set_objectOwners [0; 1]%Z
              (set_accessMatrix [[true; false]] (ChineseWall_new 1 2 2))) 0 1
           (Run () [] (competitors_wall [[true; false]]))).
  vm_compute. reflexivity.
Defined.

(** ** The class invariant *)

Lemma call_invariant st st' :
  call st st' → wf st ∧ conflict_symmetric st → wf st' ∧ conflict_symmetric st'.
Proof.
  intros Hcall [Hwf Hsym]. destruct Hcall as
    [st|s o st r H|s o st r H|o f st r Hf H|f1 f2 st r Hf1 Hf2 H].
  - split; [by apply start_wf|]. by eapply conflict_symmetric_ext.
  - split; [by eapply read_wf|].
    destruct (read_frame _ _ _ _ H) as (_ & _ & ? & _ & ?).
    by eapply conflict_symmetric_ext.
  - split; [by eapply write_wf|].
    destruct (write_frame _ _ _ _ H) as (_ & _ & ? & _ & ?).
    by eapply conflict_symmetric_ext.
  - split; [by eapply setObjectOwner_wf|].
    apply setObjectOwner_inv in H as [(_ & -> & _)|(_ & _ & _ & _ & ->)]; [done|].
    by eapply conflict_symmetric_ext.
  - split; [by eapply addConflictClass_wf|].
    by apply (addConflictClass_symmetric f1 f2 st r).
Qed.

Lemma calls_invariant st st' :
  rtc call st st' → wf st ∧ conflict_symmetric st → wf st' ∧ conflict_symmetric st'.
Proof. induction 1; [done|]. intros. eauto using call_invariant. Qed.

Lemma constructed_invariant n m f st :
  (0 < f ∨ m = 0) → (Z.of_nat f < 2 ^ 63)%Z →
  rtc call (ChineseWall_new n m f) st → wf st ∧ conflict_symmetric st.
Proof.
  intros Hf Hb Hcalls. apply (calls_invariant _ _ Hcalls).
  split; [by apply ChineseWall_new_wf|apply ChineseWall_new_symmetric].
Qed.

Lemma reportSubject_total s st : wf st → is_Some (reportSubject s st).
Proof.
  intros Hwf. destruct (decide (s < subjects st)).
  - by rewrite reportSubject_text.
  - unfold reportSubject. rewrite decide_True by lia. eauto.
Qed.

Lemma reportObject_total o st : wf st → is_Some (reportObject o st).
Proof.
  intros Hwf. destruct (decide (o < objects st)).
  - by rewrite reportObject_text.
  - unfold reportObject. rewrite decide_True by lia. eauto.
Qed.

Lemma briefCase_total firm st : wf st → is_Some (briefCase firm st).
Proof.
  intros Hwf. unfold briefCase. case_decide; [eauto|].
  rewrite (report_loop_text _
             (λ i, if decide (owner st i = Some firm)
                   then Some (portfolio_item i) else None))
    by (intros i Hi; by apply briefCase_entry_wf).
  simpl. eauto.
Qed.

(** On a wall constructed with at least one firm (or with no object), after
    any run of calls of [start], [read], [write], [setObjectOwner] and
    [addConflictClass], accepted or not: the matrix is [subjects] by
    [objects], every object has an owner that is a firm id below [firms],
    there is one conflict set per firm; and every member function, on any
    arguments, returns without indexing a vector out of its bounds. *)
Theorem constructed_wall_calls_defined n m f st :
  (0 < f ∨ m = 0) → (Z.of_nat f < 2 ^ 63)%Z →
  rtc call (ChineseWall_new n m f) st →
  wf st ∧
  ∀ s o w f1 f2,
    is_Some (read s o st) ∧ is_Some (write s o st) ∧
    is_Some (setObjectOwner o w st) ∧ is_Some (addConflictClass f1 f2 st) ∧
    is_Some (reportSubject s st) ∧ is_Some (reportObject o st) ∧
    is_Some (briefCase w st).
Proof.
  intros Hf Hb Hcalls. destruct (constructed_invariant n m f st Hf Hb Hcalls) as [Hwf _].
  split; [done|]. intros s o w f1 f2.
  split_and!;
    [by apply read_total|by apply write_total|by apply setObjectOwner_total|
     by apply addConflictClass_total|by apply reportSubject_total|
     by apply reportObject_total|by apply briefCase_total].
Qed.

Lemma constructed_wall_calls_defined_witness :
  wf (competitors_wall [[true; true]]) ∧
  ∀ s o w f1 f2,
    is_Some (read s o (competitors_wall [[true; true]])) ∧
    is_Some (write s o (competitors_wall [[true; true]])) ∧
    is_Some (setObjectOwner o w (competitors_wall [[true; true]])) ∧
    is_Some (addConflictClass f1 f2 (competitors_wall [[true; true]])) ∧
    is_Some (reportSubject s (competitors_wall [[true; true]])) ∧
    is_Some (reportObject o (competitors_wall [[true; true]])) ∧
    is_Some (briefCase w (competitors_wall [[true; true]])).
Proof.
  assert (is_int 0 ∧ is_int 1) as [Hi0 Hi1] by (unfold is_int; lia).
  apply (constructed_wall_calls_defined 1 2 2).
  - left. lia.
  - simpl. lia.
  - eapply rtc_l; [by eapply (call_setObjectOwner 0 0); [|run_call]|].
    eapply rtc_l; [by eapply (call_setObjectOwner 1 1); [|run_call]|].
    eapply rtc_l; [by eapply (call_addConflictClass 0 1); [| |run_call]|].
    eapply rtc_l; [eapply (call_read 0 0); run_call|].
    eapply rtc_l; [eapply (call_write 0 1); run_call|].
    simpl. apply rtc_refl.
Defined.

(** On a wall constructed with at least one firm (or with no object), after
    any run of calls, the conflict relation is symmetric on firm ids: if
    [b] is in the conflict set of [a] then [a] is in the conflict set of
    [b]. *)
Theorem constructed_wall_conflicts_symmetric n m f st a b :
  (0 < f ∨ m = 0) → (Z.of_nat f < 2 ^ 63)%Z →
  rtc call (ChineseWall_new n m f) st →
  (0 ≤ a < Z.of_nat (firms st))%Z → (0 ≤ b < Z.of_nat (firms st))%Z →
  conflicts st a b = true → conflicts st b a = true.
Proof.
  intros Hf Hb Hcalls.
  destruct (constructed_invariant n m f st Hf Hb Hcalls) as [_ Hsym]. apply Hsym.
Qed.

Lemma constructed_wall_conflicts_symmetric_witness :
  conflicts (competitors_wall [[false; false]]) 1 0 = true.
Proof.
  assert (is_int 0 ∧ is_int 1) as [Hi0 Hi1] by (unfold is_int; lia).
  apply (constructed_wall_conflicts_symmetric 1 2 2 (competitors_wall [[false; false]]) 0 1).
  - left. lia.
  - simpl. lia.
  - eapply rtc_l; [by eapply (call_setObjectOwner 0 0); [|run_call]|].
    eapply rtc_l; [by eapply (call_setObjectOwner 1 1); [|run_call]|].
    eapply rtc_l; [by eapply (call_addConflictClass 0 1); [| |run_call]|].
    simpl. apply rtc_refl.
  - simpl. lia.
  - simpl. lia.
  - reflexivity.
Defined.

(** ** The set-up phase of [main] *)

Lemma set_owners_spec ws : ∀ i st,
  wf st → Forall (λ w, is_int w ∧ (0 ≤ w < Z.of_nat (firms st))%Z) ws →
  i + length ws ≤ objects st →
  ∃ st', set_owners i ws st = Some st' ∧ wf st' ∧
    subjects st' = subjects st ∧ objects st' = objects st ∧ firms st' = firms st ∧
    accessMatrix st' = accessMatrix st ∧
    conflictClasses st' = conflictClasses st ∧
    ∀ j, objectOwners st' !! j
         = if decide (i ≤ j < i + length ws) then ws !! (j - i)
           else objectOwners st !! j.
Proof.
  induction ws as [|w ws IH]; intros i st Hwf Hws Hlen; simpl.
  { exists st. split_and!; try done. intros j. rewrite decide_False; [done|lia]. }
  apply Forall_cons in Hws as [[Hint Hw] Hws]. simpl in Hlen.
  pose proof Hwf as (_ & _ & Hlen_w & _ & _ & Hbound).
  destruct (setObjectOwner_total i w st Hwf) as [r Hr]. rewrite Hr. simpl.
  pose proof (setObjectOwner_wf _ _ _ _ Hint Hr Hwf) as Hwf1.
  apply setObjectOwner_inv in Hr as [(_ & _ & [?|Hge])|(_ & _ & _ & _ & Hpost)];
    [lia|by rewrite (int_lt_size_t_total w (firms st)) in Hge|].
  destruct (IH (S i) (post r) Hwf1) as (st' & Hst' & Hwf' & Hn & Hm & Hf & Hmat & Hcc & Hown).
  { by rewrite Hpost. }
  { rewrite Hpost. simpl. lia. }
  exists st'. rewrite Hpost in *. simpl in *.
  split_and!; try done. intros j. rewrite Hown.
  destruct (decide (j = i)) as [->|Hne].
  - rewrite decide_False by lia. rewrite decide_True by lia.
    rewrite Nat.sub_diag. simpl. apply list_lookup_insert_eq. lia.
  - rewrite list_lookup_insert_ne by done.
    destruct (decide (i ≤ j < i + S (length ws))) as [Hin|Hout].
    + rewrite decide_True by lia.
      replace (j - i) with (S (j - S i)) by lia. done.
    + rewrite decide_False by lia. done.
Qed.

Lemma add_conflicts_spec ps : ∀ st,
  wf st → Forall (λ p : Z * Z, is_int p.1 ∧ is_int p.2) ps →
  ∃ st', add_conflicts ps st = Some st' ∧ wf st' ∧
    firms st' = firms st ∧
    accessMatrix st' = accessMatrix st ∧
    objectOwners st' = objectOwners st ∧
    ∀ a b, (0 ≤ a < Z.of_nat (firms st))%Z → (0 ≤ b < Z.of_nat (firms st))%Z →
      (conflicts st' a b = true ↔
       conflicts st a b = true ∨ ∃ p, p ∈ ps ∧ (p = (a, b) ∨ p = (b, a))).
Proof.
  induction ps as [|[f1 f2] ps IH]; intros st Hwf Hps; simpl.
  { exists st. split_and!; try done. intros a b _ _. split; [by left|].
    intros [?|(p & Hp%elem_of_nil & _)]; done. }
  apply Forall_cons in Hps as [[Hi1 Hi2] Hps]. simpl in Hi1, Hi2.
  destruct (addConflictClass_total f1 f2 st Hwf) as [r Hr]. rewrite Hr. simpl.
  pose proof (addConflictClass_wf _ _ _ _ Hr Hwf) as Hwf1.
  destruct (IH (post r) Hwf1 Hps) as (st' & Hst' & Hwf' & Hf & Hmat & Hown & Hconf).
  exists st'. split; [done|]. split; [done|].
  destruct (decide (cerr r = [])) as [Hc|Hc].
  - destruct (addConflictClass_accepted st f1 f2 r Hwf Hi1 Hi2 Hr Hc)
      as (Hr1 & Hr2 & _ & _ & Hf1 & Hmat1 & Hown1 & Hconf1).
    split_and!; [congruence..|].
    intros a b Ha Hb. rewrite Hconf by (rewrite Hf1; done). rewrite Hconf1 by done.
    split.
    + intros [[?|[[-> ->]|[-> ->]]]|(p & Hp & Hpab)].
      * by left.
      * right. exists (f1, f2). split; [left|by left].
      * right. exists (f1, f2). split; [left|by right].
      * right. exists p. split; [by right|done].
    + intros [?|(p & Hp & Hpab)]; [by left; left|].
      apply elem_of_cons in Hp as [->|Hp].
      * left. right. destruct Hpab as [[= -> ->]|[= -> ->]]; tauto.
      * right. eauto.
  - destruct (addConflictClass_rejected st f1 f2 r Hwf Hr Hc) as [-> Hinv].
    simpl in *. split_and!; [done..|].
    intros a b Ha Hb. rewrite Hconf by done. split.
    + intros [?|(p & Hp & Hpab)]; [by left|]. right. exists p. split; [by right|done].
    + intros [?|(p & Hp & Hpab)]; [by left|].
      apply elem_of_cons in Hp as [->|Hp]; [|right; eauto].
      exfalso. apply Hinv. destruct Hpab as [[= -> ->]|[= -> ->]]; done.
Qed.

(** When [main] is given [m] [int] owners that are firm ids below [f] and
    any [int] conflict pairs, the wall it sets up records exactly that policy:
    the owners are the ones given, in order; two firm ids conflict exactly
    when the pair was given in either order (a pair with an id out of range
    is skipped whole); and nothing is granted. *)
Theorem main_setup_policy n m f ws ps :
  0 < f → (Z.of_nat f < 2 ^ 63)%Z → length ws = m →
  Forall (λ w, is_int w ∧ (0 ≤ w < Z.of_nat f)%Z) ws →
  Forall (λ p : Z * Z, is_int p.1 ∧ is_int p.2) ps →
  ∃ st, main_setup n m f ws ps = Some st ∧ wf st ∧
    subjects st = n ∧ objects st = m ∧ firms st = f ∧
    objectOwners st = ws ∧
    (∀ s o, granted st s o = false) ∧
    ∀ a b, (0 ≤ a < Z.of_nat f)%Z → (0 ≤ b < Z.of_nat f)%Z →
      (conflicts st a b = true ↔ ∃ p, p ∈ ps ∧ (p = (a, b) ∨ p = (b, a))).
Proof.
  intros Hf Hb Hlen Hws Hps. unfold main_setup.
  assert (wf (ChineseWall_new n m f)) as Hwf0 by (apply ChineseWall_new_wf; [lia|done]).
  destruct (set_owners_spec ws 0 (ChineseWall_new n m f) Hwf0)
    as (st1 & -> & Hwf1 & Hn1 & Hm1 & Hf1 & Hmat1 & Hcc1 & Hown1); [done|simpl; lia|].
  simpl.
  destruct (add_conflicts_spec ps st1 Hwf1 Hps)
    as (st & -> & Hwf & Hf2 & Hmat & Hown & Hconf).
  exists st. split; [done|]. split; [done|].
  pose proof Hwf as (Hrows & _ & Hlen_w & _).
  assert (objectOwners st = ws) as Howners.
  { rewrite Hown. apply list_eq. intros j. rewrite Hown1. simpl.
    case_decide as Hj.
    - by rewrite Nat.sub_0_r.
    - transitivity (@None Z); [apply lookup_replicate_None; lia|].
      symmetry. apply lookup_ge_None. lia. }
  assert (objects st = m) as Hm by (rewrite <- Hlen_w, Howners; done).
  assert (∀ s o, granted st s o = false) as Hgr.
  { intros s o. unfold granted. rewrite Hmat, Hmat1.
    apply (ChineseWall_new_granted n m f s o). }
  assert (subjects st = n) as Hn.
  { rewrite <- Hrows, Hmat, Hmat1. simpl. by rewrite length_replicate. }
  split_and!; [done|done|by rewrite Hf2, Hf1|done|done|].
  intros a b Ha Hb'. rewrite Hconf by (rewrite Hf1; done).
  assert (conflicts st1 a b = false) as ->.
  { rewrite (conflicts_ext _ _ Hcc1). apply ChineseWall_new_conflicts. }
  split; [intros [?|?]; done|by right].
Qed.

Lemma main_setup_policy_witness :
  ∃ st, main_setup 2 2 2 [0; 1]%Z [(0, 1); (1, 7)]%Z = Some st ∧ wf st ∧
    subjects st = 2 ∧ objects st = 2 ∧ firms st = 2 ∧
    objectOwners st = [0; 1]%Z ∧
    (∀ s o, granted st s o = false) ∧
    ∀ a b, (0 ≤ a < Z.of_nat 2)%Z → (0 ≤ b < Z.of_nat 2)%Z →
      (conflicts st a b = true ↔
       ∃ p, p ∈ [(0, 1); (1, 7)]%Z ∧ (p = (a, b) ∨ p = (b, a))).
Proof.
  apply (main_setup_policy 2 2 2 [0; 1]%Z [(0, 1); (1, 7)]%Z).
  - lia.
  - simpl. lia.
  - reflexivity.
  - unfold is_int. repeat constructor; lia.
  - unfold is_int. repeat constructor; simpl; lia.
Defined.

(** ** Reading again, and locked objects *)

(** On a well-formed wall, after an accepted [read] the same call is
    accepted again exactly when the index of the subject, converted to
    [int], is not in the conflict set of the owner of the object. *)
Theorem repeated_read st s o r fo :
  wf st → s < subjects st → o < objects st →
  read s o st = Some r → ret r = true → owner st o = Some fo →
  ∃ r', read s o (post r) = Some r' ∧
        (ret r' = true ↔ conflicts st fo (int_of_size_t s) = false).
Proof.
  intros Hwf Hs Ho Hr Hret Hfo.
  destruct (read_decision s o st Hwf Hs Ho) as (r0 & fo0 & Hr0 & Hfo0 & _ & Hiff & Hg & _).
  assert (r0 = r) as -> by congruence. assert (fo0 = fo) as -> by congruence.
  pose proof (Hg Hret) as Hgrant.
  pose proof (read_wf _ _ _ _ Hr Hwf) as Hwf'.
  destruct (grant_frame _ _ _ _ Hgrant) as (Hn & Hm & _ & Hown & Hcc).
  destruct (read_decision s o (post r) Hwf') as (r' & fo' & Hr' & Hfo' & _ & Hiff' & _);
    [lia..|].
  assert (fo' = fo) as ->.
  { unfold owner in *. rewrite Hown in Hfo'. congruence. }
  exists r'. split; [done|]. rewrite Hiff'. split.
  - intros Hall. rewrite <- (conflicts_ext st (post r) Hcc). apply Hall; [lia|].
    rewrite (granted_grant _ _ _ _ s o Hgrant). by rewrite decide_True.
  - intros Hs_free i Hi Hgi. rewrite (conflicts_ext st (post r) Hcc).
    rewrite (granted_grant _ _ _ _ i o Hgrant) in Hgi.
    case_decide as Hio.
    + destruct Hio as [-> _]. done.
    + apply Hiff; [done|lia|done].
Qed.

Lemma repeated_read_witness :
  ∃ r', read 1 0 (post (Run true [] (single_object_wall [[false]; [true]]))) = Some r' ∧
        (ret r' = true ↔
         conflicts (single_object_wall [[false]; [false]]) 0 (int_of_size_t 1) = false).
Proof.
  apply (repeated_read (single_object_wall [[false]; [false]]) 1 0
           (Run true [] (single_object_wall [[false]; [true]])) 0).
  - wf_by_compute.
  - simpl. lia.
  - simpl. lia.
  - reflexivity.
  - reflexivity.
  - reflexivity.
Defined.

Lemma access_post st st' :
  access st st' → st' = st ∨ ∃ s o, grant s o st = Some st'.
Proof.
  intros [s o ? r H|s o ? r H].
  - apply read_post in H as [->|H]; eauto.
  - apply write_post in H as [->|H]; eauto.
Qed.

Lemma access_keeps st st' :
  access st st' →
  (wf st → wf st') ∧
  subjects st' = subjects st ∧ objects st' = objects st ∧
  objectOwners st' = objectOwners st ∧ conflictClasses st' = conflictClasses st ∧
  ∀ s o, granted st s o = true → granted st' s o = true.
Proof.
  intros [-> | (s0 & o0 & Hgrant)]%access_post; [done|].
  destruct (grant_frame _ _ _ _ Hgrant) as (? & ? & _ & ? & ?).
  split_and!; [by eapply grant_wf|done..|].
  intros s o Hg. rewrite (granted_grant _ _ _ _ s o Hgrant). by case_decide.
Qed.

(** On a well-formed wall, an object whose [read] was refused on in-range
    arguments stays refused, to every subject, along any run of calls of
    [read] and [write]. *)
Theorem refused_object_stays_refused st st' s s' o r :
  wf st → s < subjects st → s' < subjects st → o < objects st →
  read s o st = Some r → ret r = false →
  rtc access st st' →
  ∃ r', read s' o st' = Some r' ∧ ret r' = false.
Proof.
  intros Hwf Hs Hs' Ho Hr Hret Hrun.
  destruct (read_in_range s o st r Hs Ho Hr)
    as (fo & Hfo & _ & [(_ & _ & i & Hi & Hg & Hc)|(? & _)]); [|congruence].
  clear Hr Hret r Hs s.
  revert Hwf Hs' Ho Hfo Hi Hg Hc.
  induction Hrun as [st|st st1 st2 Hstep _ IH]; intros Hwf Hs' Ho Hfo Hi Hg Hc.
  - destruct (read_decision s' o st Hwf Hs' Ho) as (r' & fo' & Hr' & Hfo' & _ & Hiff & _).
    assert (fo' = fo) as -> by congruence.
    exists r'. split; [done|]. destruct (ret r'); [|done].
    rewrite (proj1 Hiff eq_refl i Hi Hg) in Hc. done.
  - destruct (access_keeps _ _ Hstep) as (Hwf1 & Hn & Hm & Hown & Hcc & Hmono).
    apply IH.
    + by apply Hwf1.
    + lia.
    + lia.
    + unfold owner in *. by rewrite Hown.
    + lia.
    + by apply Hmono.
    + by rewrite (conflicts_ext st st1 Hcc).
Qed.

Lemma refused_object_stays_refused_witness :
  ∃ r', read 0 0 (single_object_wall [[false]; [true]]) = Some r' ∧ ret r' = false.
Proof.
  apply (refused_object_stays_refused
           (single_object_wall [[false]; [true]]) (single_object_wall [[false]; [true]])
           1 0 0 (Run false [] (single_object_wall [[false]; [true]]))).
  - wf_by_compute.
  - simpl. lia.
  - simpl. lia.
  - simpl. lia.
  - reflexivity.
  - reflexivity.
  - eapply rtc_l; [eapply (access_write 1 0); run_call|].
    eapply rtc_l; [eapply (access_read 5 0); run_call|].
    simpl. apply rtc_refl.
Defined.
